(** * FTDC flattener, sample iterator and command-line decode: a shallow embedding

  The development follows two files of the repository:

  - [sample_iterator.go] (package [ftdc]): [streamDocuments], the document
    flattener [flattenDocument] / [flattenArray] / [metricForType] and the
    header-field decoder [unpackInt];
  - [cmd/ftdc/main.go]: [parseTimes], [decode] (with its merge mode) and
    [export].

  Go's [int] is taken at its 64-bit width throughout. *)

From Stdlib Require Import ZArith Lia Floats.SpecFloat DecimalString.
From Stdlib Require DecimalNat DecimalFacts.
From stdpp Require Import base option list strings gmap.

Local Open Scope Z_scope.
Local Set Warnings "-register-all".

(** ** Machine integers *)

Module GoInt.

(** Two's-complement reading of the low [w] bits of [z]. *)
Definition swrap (w : Z) (z : Z) : Z :=
  (z + 2 ^ (w - 1)) mod 2 ^ w - 2 ^ (w - 1).

(** Unsigned reading of the low [w] bits of [z]. *)
Definition uwrap (w : Z) (z : Z) : Z := z mod 2 ^ w.

Definition int (z : Z) : Z := swrap 64 z.
Definition int32 (z : Z) : Z := swrap 32 z.
Definition int64 (z : Z) : Z := swrap 64 z.
Definition uint32 (z : Z) : Z := uwrap 32 z.

Definition min_int64 : Z := - 2 ^ 63.
Definition max_int64 : Z := 2 ^ 63 - 1.

(** [x << k] on a [uint32]. *)
Definition shl32 (x : Z) (k : Z) : Z := uint32 (Z.shiftl x k).

(** [int(f)] for a [float64]: the fraction is discarded.  A value that does
    not fit (or a NaN, an infinity) gives the "integer indefinite" value of
    the amd64 conversion instruction. *)
Definition int_of_float64 (f : spec_float) : Z :=
  match f with
  | S754_zero _ => 0
  | S754_finite s m e =>
      let mag := if (0 <=? e) then Z.pos m * 2 ^ e else Z.pos m / 2 ^ (- e) in
      let v := if s then - mag else mag in
      if (min_int64 <=? v) && (v <=? max_int64) then v else min_int64
  | S754_infinity _ | S754_nan => min_int64
  end.

End GoInt.

(** ** The [time] package, as far as the code uses it *)

Module GoTime.

(** A [time.Time], as seconds and nanoseconds since the Unix epoch. *)
Record Time := mkTime { sec : Z; nsec : Z }.

(** Go's [/] and [%] truncate towards zero. *)
Definition Unix (s ns : Z) : Time :=
  if (ns <? 0) || (1000000000 <=? ns) then
    let n := Z.quot ns 1000000000 in
    let s := GoInt.int64 (s + n) in
    let ns := ns - n * 1000000000 in
    if ns <? 0 then mkTime (GoInt.int64 (s - 1)) (ns + 1000000000)
    else mkTime s ns
  else mkTime s ns.

(** [t.Unix()]. *)
Definition Time_Unix (t : Time) : Z := sec t.

End GoTime.

(** ** BSON values *)

Module Bson.

Inductive Value : Type :=
| VDouble (f : spec_float)
| VString (s : string)
| VEmbeddedDocument (d : list (string * Value))
| VArray (a : option (list Value))
| VBinary (subtype : Byte.byte) (data : list Byte.byte)
| VUndefined
| VObjectID (oid : list Byte.byte)
| VBoolean (b : bool)
| VDateTime (ms : Z)
| VNull
| VRegex (pattern options : string)
| VDBPointer (ns : string) (oid : list Byte.byte)
| VJavaScript (code : string)
| VSymbol (s : string)
| VCodeWithScope (code : string) (scope : list (string * Value))
| VInt32 (i : Z)
| VTimestamp (t i : Z)
| VInt64 (i : Z)
| VDecimal128 (h l : Z)
| VMinKey
| VMaxKey.

(** A [*bson.Document]: its elements, in document order. *)
Definition Document : Type := list (string * Value).

(** A [*bson.Array].  [None] stands for an array that
    [bson.NewArrayIterator] rejects with an error. *)
Definition Array : Type := option (list Value).

Inductive IterError := ErrNilArray.

Definition NewArrayIterator (a : Array) : IterError + list Value :=
  match a with
  | None => inl ErrNilArray
  | Some vs => inr vs
  end.

(** [val.DateTime()]: the stored count of milliseconds as a [time.Time]. *)
Definition DateTime (ms : Z) : GoTime.Time :=
  let i := GoInt.int64 ms in
  GoTime.Unix (Z.quot i 1000) (Z.rem i 1000 * 1000000).

(** [bson.EC.Int64(key, v)]. *)
Definition EC_Int64 (key : string) (v : Z) : string * Value :=
  (key, VInt64 v).

End Bson.

(** ** Package [ftdc]: the flattener and the sample iterator *)

Module Ftdc.
Import GoInt Bson.

Record Metric := mkMetric {
  ParentPath : list string;
  KeyName : string;
  StartingValue : Z;
  Values : list Z
}.

(** A [Metric{ParentPath: .., KeyName: .., StartingValue: ..}] literal. *)
Definition Metric_lit (path : list string) (key : string) (v : Z) : Metric :=
  mkMetric path key v [].

(** [fmt.Sprintf("%s.%d", key, idx)]. *)
Definition sprintf_key_idx (key : string) (idx : nat) : string :=
  (key ++ "." ++ NilZero.string_of_uint (Nat.to_uint idx))%string.

(** [metricForType], with the loops of [flattenDocument] and [flattenArray]
    written in place so that the recursion is structural on the value
    (the equations [metricForType_array] and [metricForType_document] below
    give the calls back; for an array the two outcomes of
    [NewArrayIterator] are the two cases of the match).
    [append(path, key)] is [path ++ [key]]: the slice handed to the
    flattener by its callers has no spare capacity, and the only paths that
    reach the result are that slice and its one-key extensions.  So the
    function is that of the code for a call from outside with a path
    without spare capacity, the nil path above all.  For a path slice with
    spare capacity the code extends the backing array in place, and the
    key of a later sub-document then shows in the metrics of an earlier
    one; that sharing is not part of this definition. *)
Fixpoint metricForType (key : string) (path : list string) (val : Value)
  {struct val} : list Metric :=
  match val with
  | VObjectID _ => []
  | VString _ => []
  | VDecimal128 _ _ => []
  | VArray a =>
      match a with
      | None => []
      | Some vs =>
          (fix loop (idx : nat) (vs : list Value) {struct vs} : list Metric :=
             match vs with
             | [] => []
             | val :: rest =>
                 metricForType (sprintf_key_idx key idx) path val
                   ++ loop (S idx) rest
             end) 0%nat vs
      end
  | VEmbeddedDocument d =>
      let path := path ++ [key] in
      map (fun ne => Metric_lit path (KeyName ne) (StartingValue ne))
        ((fix loop (d : list (string * Value)) {struct d} : list Metric :=
            match d with
            | [] => []
            | (key, val) :: rest => metricForType key path val ++ loop rest
            end) d)
  | VBoolean b =>
      if b then [Metric_lit path key 1] else [Metric_lit path key 0]
  | VDouble f => [Metric_lit path key (int_of_float64 f)]
  | VInt32 i => [Metric_lit path key (int (int32 i))]
  | VInt64 i => [Metric_lit path key (int (int64 i))]
  | VDateTime ms =>
      [Metric_lit path key
         (int (int (GoTime.Time_Unix (DateTime ms)) * 1000))]
  | VTimestamp t i =>
      [Metric_lit path key (int (int (uint32 t) * 1000));
       Metric_lit path (key ++ ".inc")%string (int (uint32 i))]
  | _ => []
  end.

Definition flattenDocument (path : list string) (d : Document) : list Metric :=
  (fix loop (d : list (string * Value)) : list Metric :=
     match d with
     | [] => []
     | (key, val) :: rest => metricForType key path val ++ loop rest
     end) d.

Fixpoint flattenArray_loop (key : string) (path : list string) (idx : nat)
  (vs : list Value) : list Metric :=
  match vs with
  | [] => []
  | val :: rest =>
      metricForType (sprintf_key_idx key idx) path val
        ++ flattenArray_loop key path (S idx) rest
  end.

Definition flattenArray (key : string) (path : list string) (a : Array)
  : list Metric :=
  match NewArrayIterator a with
  | inl _ => []
  | inr vs => flattenArray_loop key path 0%nat vs
  end.

(** Modelled from the spec: [Metric.Key] is not among the sources; the spec
    gives the fully-qualified metric name as path and key joined by dots. *)
Definition Key (m : Metric) : string :=
  String.concat "." (ParentPath m ++ [KeyName m]).

(** [unpackInt]; [None] is the index-out-of-range panic. *)
Definition unpackInt (bl : list Byte.byte) : option Z :=
  b0 ← bl !! 0%nat;
  b1 ← bl !! 1%nat;
  b2 ← bl !! 2%nat;
  b3 ← bl !! 3%nat;
  let u (b : Byte.byte) := uint32 (Z.of_N (Byte.to_N b)) in
  Some (int (int32 (Z.lor (Z.lor (Z.lor (shl32 (u b0) 0) (shl32 (u b1) 8))
                                 (shl32 (u b2) 16))
                          (shl32 (u b3) 24)))).

(** [sum]. *)
Definition sum (l : list Z) : Z := fold_left (fun s v => int (s + v)) l 0.

Record Chunk := mkChunk {
  metrics : list Metric;
  nPoints : Z
}.

(** What the producing goroutine of [streamDocuments] did before it
    stopped: the documents it sent, and whether it closed the channel on
    return or died on an index out of range. *)
Inductive Stream :=
| Closed (docs : list Document)
| Panicked (docs : list Document).

Definition sent (s : Stream) : list Document :=
  match s with Closed docs | Panicked docs => docs end.

Definition send (doc : Document) (s : Stream) : Stream :=
  match s with
  | Closed docs => Closed (doc :: docs)
  | Panicked docs => Panicked (doc :: docs)
  end.

(** The inner loop: one [Int64] element per metric; [None] when some
    [m.Values[i]] is out of range. *)
Fixpoint sample_doc (ms : list Metric) (i : nat) : option Document :=
  match ms with
  | [] => Some []
  | m :: rest =>
      v ← Values m !! i;
      doc ← sample_doc rest i;
      Some (EC_Int64 (Key m) v :: doc)
  end.

(** The outer loop, [n] iterations from index [i].  [done i] tells whether
    the [select] of iteration [i] took the [ctx.Done()] branch. *)
Fixpoint stream_from (c : Chunk) (done : nat -> bool) (n : nat) (i : nat)
  : Stream :=
  match n with
  | O => Closed []
  | S n' =>
      match sample_doc (metrics c) i with
      | None => Panicked []
      | Some doc =>
          if done i then Closed []
          else send doc (stream_from c done n' (S i))
      end
  end.

Definition streamDocuments (c : Chunk) (done : nat -> bool) : Stream :=
  stream_from c done (Z.to_nat (int (nPoints c + 1))) 0.

End Ftdc.


(** ** Command [ftdc]: [decode] and [export] *)

Module Cmd.
Import GoInt GoTime.

(** [ftdc.Metric] and [ftdc.Chunk] of the library the command imports. *)
Record Metric := mkMetric {
  Key : string;
  Value : Z;
  Deltas : list Z
}.

Record Chunk := mkChunk {
  Metrics : list Metric;
  NDeltas : Z
}.

(** One expanded sample, as [Expand] returns it. *)
Definition Doc : Type := gmap string Z.

(** An opened diagnostic file, seen through [ftdc.Chunks(f, o)]: the chunks
    it sends on [o] before it returns (closing [o]), and the error it
    returns, if any. *)
Record File := mkFile {
  chunks_read : list Chunk;
  parse_error : option string
}.

(** Modelled from the spec: [Chunk.Clip] belongs to the imported package
    and is not among the sources.  The spec makes clipping a test on the
    whole chunk against the window ("clipping is whole-chunk; chunks are
    not subsetted"): a function to [bool] that leaves the chunk as it
    is. *)
Definition ClipTest : Type := Chunk -> Time -> Time -> bool.

(** What the command finds outside itself. *)
Record World := mkWorld {
  (** [time.Parse(time.UnixDate, s)]; [None] is a parse error. *)
  time_Parse : string -> option Time;
  (** [os.Open(file)]; [None] is an error. *)
  os_Open : string -> option File;
  (** [c.Clip(start, end)]. *)
  Clip : ClipTest;
  (** [c.Expand(includeKeys)]. *)
  Expand : Chunk -> gmap string bool -> list Doc
}.

Inductive Error :=
| ErrMustProvideFile
| ErrParseStart (tStart : string)
| ErrParseEnd (tEnd : string)
| ErrOpen (file : string)
| ErrNoChunks
| ErrWrite (chunk : Z) (delta : nat).

(** Lines written to standard error. *)
Inductive Event :=
| LogChunk (file : string) (c : Chunk)
| LogFound (count : Z)
| LogWriting (file : string).

Definition parseTimes (w : World) (tStart tEnd : string)
  : Error + Time * Time :=
  match
    (if bool_decide (tStart <> ""%string) then
       match time_Parse w tStart with
       | None => inl (ErrParseStart tStart)
       | Some t => inr t
       end
     else inr (Unix min_int64 0))
  with
  | inl e => inl e
  | inr start =>
      match
        (if bool_decide (tEnd <> ""%string) then
           match time_Parse w tEnd with
           | None => inl (ErrParseEnd tEnd)
           | Some t => inr t
           end
         else inr (Unix max_int64 0))
      with
      | inl e => inl e
      | inr end_ => inr (start, end_)
      end
  end.

(** The state [decode] carries through its loops.  [parse_log] holds the
    messages the parsing goroutines write to standard error; how they
    interleave with [log], the lines of the main goroutine, is left open. *)
Record DecodeState := mkDecodeState {
  cs : list Chunk;
  count : Z;
  log : list Event;
  parse_log : list string
}.

Definition report_parse_error (f : File) (plog : list string) : list string :=
  match parse_error f with
  | Some err => plog ++ [err]
  | None => plog
  end.

(** The body of [for c := range o]. *)
Definition decode_chunk (w : World) (start end_ : Time) (silent : bool)
  (file : string) (st : DecodeState) (c : Chunk) : DecodeState :=
  if negb (Clip w c start end_) then st
  else
    mkDecodeState (cs st ++ [c]) (int (count st + NDeltas c))
      (if negb silent then log st ++ [LogChunk file c] else log st)
      (parse_log st).

Fixpoint decode_files (w : World) (start end_ : Time) (silent : bool)
  (files : list string) (st : DecodeState) : option Error * DecodeState :=
  match files with
  | [] => (None, st)
  | file :: rest =>
      match os_Open w file with
      | None => (Some (ErrOpen file), st)
      | Some f =>
          let st :=
            mkDecodeState (cs st) (count st) (log st)
              (report_parse_error f (parse_log st)) in
          decode_files w start end_ silent rest
            (fold_left (decode_chunk w start end_ silent file)
               (chunks_read f) st)
      end
  end.

(** The merge loop body: [total[k]] is extended or set. *)
Definition merge_metric (total : gmap string Metric) (m : Metric)
  : gmap string Metric :=
  let k := Key m in
  match total !! k with
  | Some t => <[k := mkMetric k (Value t) (Deltas t ++ Deltas m)]> total
  | None => <[k := m]> total
  end.

Definition merge (cs : list Chunk) : gmap string Metric :=
  fold_left (fun total c => fold_left merge_metric (Metrics c) total) cs ∅.

Inductive Output :=
| Merged (total : gmap string Metric)
| ChunkList (cs : list Chunk).

Record DecodeRun := mkDecodeRun {
  returned : Error + Output;
  stderr : list Event;
  stderr_parsers : list string
}.

Definition decode (w : World) (files : list string) (tStart tEnd : string)
  (silent shouldMerge : bool) : DecodeRun :=
  if bool_decide (length files = 0%nat) then
    mkDecodeRun (inl ErrMustProvideFile) [] []
  else
    match parseTimes w tStart tEnd with
    | inl e => mkDecodeRun (inl e) [] []
    | inr (start, end_) =>
        match
          decode_files w start end_ silent files (mkDecodeState [] 0 [] [])
        with
        | (Some e, st) => mkDecodeRun (inl e) (log st) (parse_log st)
        | (None, st) =>
            if bool_decide (length (cs st) = 0%nat) then
              mkDecodeRun (inl ErrNoChunks) (log st) (parse_log st)
            else
              let log :=
                if negb silent then log st ++ [LogFound (count st)]
                else log st in
              if shouldMerge then
                mkDecodeRun (inr (Merged (merge (cs st)))) log (parse_log st)
              else
                mkDecodeRun (inr (ChunkList (cs st))) log (parse_log st)
        end
    end.

(** The [io.Writer] behind the JSON encoder: the documents it has taken,
    and how many more it takes before [Encode] fails. *)
Record Writer := mkWriter {
  written : list Doc;
  room : nat
}.

Definition Encode (out : Writer) (d : Doc) : option Writer :=
  match room out with
  | O => None
  | S r => Some (mkWriter (written out ++ [d]) r)
  end.

Record ExportState := mkExportState {
  chunkCount : Z;
  ecount : Z;
  out : Writer;
  elog : list Event;
  eparse_log : list string
}.

(** [for i, d := range c.Expand(includeKeys)]. *)
Fixpoint export_docs (ds : list Doc) (i : nat) (st : ExportState)
  : option Error * ExportState :=
  match ds with
  | [] => (None, st)
  | d :: rest =>
      match Encode (out st) d with
      | None => (Some (ErrWrite (chunkCount st) i), st)
      | Some out' =>
          export_docs rest (S i)
            (mkExportState (chunkCount st) (int (ecount st + 1)) out'
               (elog st) (eparse_log st))
      end
  end.

(** [for c := range o] of [export]. *)
Fixpoint export_chunks (w : World) (start end_ : Time) (silent : bool)
  (includeKeys : gmap string bool) (file : string) (chunks : list Chunk)
  (st : ExportState) : option Error * ExportState :=
  match chunks with
  | [] => (None, st)
  | c :: rest =>
      if negb (Clip w c start end_) then
        export_chunks w start end_ silent includeKeys file rest st
      else
        let st :=
          mkExportState (int (chunkCount st + 1)) (ecount st) (out st)
            (if negb silent then elog st ++ [LogChunk file c] else elog st)
            (eparse_log st) in
        match export_docs (Expand w c includeKeys) 0 st with
        | (Some e, st) => (Some e, st)
        | (None, st) =>
            export_chunks w start end_ silent includeKeys file rest st
        end
  end.

Fixpoint export_files (w : World) (start end_ : Time) (silent : bool)
  (includeKeys : gmap string bool) (files : list string) (st : ExportState)
  : option Error * ExportState :=
  match files with
  | [] => (None, st)
  | file :: rest =>
      match os_Open w file with
      | None => (Some (ErrOpen file), st)
      | Some f =>
          (* the goroutine prints the parse failure once [ftdc.Chunks] has
             returned, which it does only after the range loop has taken
             every chunk: on a return from inside the loop nothing is
             printed *)
          match
            export_chunks w start end_ silent includeKeys file
              (chunks_read f) st
          with
          | (Some e, st) => (Some e, st)
          | (None, st) =>
              export_files w start end_ silent includeKeys rest
                (mkExportState (chunkCount st) (ecount st) (out st) (elog st)
                   (report_parse_error f (eparse_log st)))
          end
      end
  end.

(** [export]: the returned error ([None] is [nil]) and the final state. *)
Definition export (w : World) (files : list string) (tStart tEnd : string)
  (silent : bool) (out : Writer) (includeKeys : gmap string bool)
  : option Error * ExportState :=
  let st0 := mkExportState 0 0 out [] [] in
  if bool_decide (length files = 0%nat) then (Some ErrMustProvideFile, st0)
  else
    match parseTimes w tStart tEnd with
    | inl e => (Some e, st0)
    | inr (start, end_) =>
        match export_files w start end_ silent includeKeys files st0 with
        | (Some e, st) => (Some e, st)
        | (None, st) =>
            (None,
             mkExportState (chunkCount st) (ecount st) (Cmd.out st)
               (if negb silent then elog st ++ [LogFound (ecount st)]
                else elog st)
               (eparse_log st))
        end
    end.

End Cmd.

(** ** Notions the statements below use *)

Module Shape.
Import Bson.

(** [bson.Type], the tag [val.Type()] switches on. *)
Inductive BsonType :=
| TypeDouble | TypeString | TypeEmbeddedDocument | TypeArray | TypeBinary
| TypeUndefined | TypeObjectID | TypeBoolean | TypeDateTime | TypeNull
| TypeRegex | TypeDBPointer | TypeJavaScript | TypeSymbol
| TypeCodeWithScope | TypeInt32 | TypeTimestamp | TypeInt64
| TypeDecimal128 | TypeMinKey | TypeMaxKey.

#[export] Instance BsonType_eq_dec : EqDecision BsonType.
Proof. solve_decision. Defined.

Definition Value_Type (v : Value) : BsonType :=
  match v with
  | VDouble _ => TypeDouble
  | VString _ => TypeString
  | VEmbeddedDocument _ => TypeEmbeddedDocument
  | VArray _ => TypeArray
  | VBinary _ _ => TypeBinary
  | VUndefined => TypeUndefined
  | VObjectID _ => TypeObjectID
  | VBoolean _ => TypeBoolean
  | VDateTime _ => TypeDateTime
  | VNull => TypeNull
  | VRegex _ _ => TypeRegex
  | VDBPointer _ _ => TypeDBPointer
  | VJavaScript _ => TypeJavaScript
  | VSymbol _ => TypeSymbol
  | VCodeWithScope _ _ => TypeCodeWithScope
  | VInt32 _ => TypeInt32
  | VTimestamp _ _ => TypeTimestamp
  | VInt64 _ => TypeInt64
  | VDecimal128 _ _ => TypeDecimal128
  | VMinKey => TypeMinKey
  | VMaxKey => TypeMaxKey
  end.

(** Two values have the same shape when they have the same type and, for
    documents, the same keys in the same order with values of the same
    shape; for arrays, the same length with elements of the same shape
    (and the iterator is available for both or for neither).  Leaf values
    are free. *)
Fixpoint same_shape (v1 v2 : Value) {struct v1} : bool :=
  match v1, v2 with
  | VEmbeddedDocument d1, VEmbeddedDocument d2 =>
      (fix go (d1 d2 : list (string * Value)) {struct d1} : bool :=
         match d1, d2 with
         | [], [] => true
         | (k1, x1) :: r1, (k2, x2) :: r2 =>
             bool_decide (k1 = k2) && same_shape x1 x2 && go r1 r2
         | _, _ => false
         end) d1 d2
  | VArray (Some a1), VArray (Some a2) =>
      (fix go (a1 a2 : list Value) {struct a1} : bool :=
         match a1, a2 with
         | [], [] => true
         | x1 :: r1, x2 :: r2 => same_shape x1 x2 && go r1 r2
         | _, _ => false
         end) a1 a2
  | VArray None, VArray None => true
  | VArray _, _ => false
  | VEmbeddedDocument _, _ => false
  | _, _ => bool_decide (Value_Type v1 = Value_Type v2)
  end.

Definition same_shape_doc (d1 d2 : Document) : bool :=
  same_shape (VEmbeddedDocument d1) (VEmbeddedDocument d2).

(** The schema entry of a metric. *)
Definition schema_entry (m : Ftdc.Metric) : list string * string :=
  (Ftdc.ParentPath m, Ftdc.KeyName m).

(** The little-endian unsigned 32-bit value of four bytes. *)
Definition le_uint32 (b0 b1 b2 b3 : Byte.byte) : Z :=
  Z.of_N (Byte.to_N b0) + 2 ^ 8 * Z.of_N (Byte.to_N b1)
  + 2 ^ 16 * Z.of_N (Byte.to_N b2) + 2 ^ 24 * Z.of_N (Byte.to_N b3).

(** The byte of a number below 256. *)
Definition byte_of_Z (z : Z) : Byte.byte :=
  default Byte.x00 (Byte.of_N (Z.to_N z)).

(** The four bytes of an unsigned 32-bit value, least significant first. *)
Definition le_bytes32 (v : Z) : list Byte.byte :=
  [byte_of_Z (v mod 2 ^ 8); byte_of_Z ((v / 2 ^ 8) mod 2 ^ 8);
   byte_of_Z ((v / 2 ^ 16) mod 2 ^ 8); byte_of_Z ((v / 2 ^ 24) mod 2 ^ 8)].

(** An element of the [i]-th sample document, for the metric [m]: keyed by
    the metric's key and holding its [i]-th value. *)
Definition sample_of (i : nat) (m : Ftdc.Metric) (e : string * Value)
  : Prop :=
  exists v, Ftdc.Values m !! i = Some v /\ e = (Ftdc.Key m, VInt64 v).

End Shape.

Module Runs.
Import GoTime Cmd.

(** The metrics with key [k], in chunk order and, within a chunk, in
    metric order. *)
Definition occurrences (k : string) (cs : list Chunk) : list Metric :=
  filter (fun m => Key m = k) (flat_map Metrics cs).

(** Every chunk the files yield, in stream order. *)
Definition chunks_of (w : World) (files : list string) : list Chunk :=
  flat_map
    (fun file =>
       match os_Open w file with
       | Some f => chunks_read f
       | None => []
       end) files.

(** The chunks that pass the clip test, each as it was read. *)
Definition kept (w : World) (start end_ : Time) (files : list string)
  : list Chunk :=
  List.filter (fun c => Clip w c start end_) (chunks_of w files).

(** The same world, with every chunk stream ending cleanly where it
    ends. *)
Definition without_parse_errors (w : World) : World :=
  mkWorld (time_Parse w)
    (fun file => (fun f => mkFile (chunks_read f) None) <$> os_Open w file)
    (Clip w) (Expand w).


(** A small world: one diagnostic file, [metrics.0], whose stream yields
    two chunks and then fails; the clip test keeps the chunks that start
    at or after the window's start. *)
Definition chunk_a : Chunk :=
  mkChunk [mkMetric "start" 1000 [1000; 1000]; mkMetric "x" 7 [1; 0]] 2.

Definition chunk_b : Chunk :=
  mkChunk [mkMetric "start" 4000 [1000]; mkMetric "x" 9 [2]] 1.

Definition start_of (c : Chunk) : Z :=
  match List.filter (fun m => bool_decide (Key m = "start"%string)) (Metrics c) with
  | m :: _ => Value m
  | [] => 0
  end.

Definition small_world : World :=
  mkWorld
    (fun s => if bool_decide (s = "t2"%string) then Some (mkTime 2 0) else None)
    (fun file =>
       if bool_decide (file = "metrics.0"%string)
       then Some (mkFile [chunk_a; chunk_b] (Some "unexpected EOF"%string))
       else None)
    (fun c start end_ =>
       (sec start * 1000 <=? start_of c) && (start_of c <=? sec end_ * 1000))
    (fun c _ =>
       map (fun i : nat => {[ "start"%string := start_of c + Z.of_nat i * 1000 ]})
         (seq 0 (Z.to_nat (NDeltas c + 1)))).

End Runs.

(** ** More of package [ftdc]: the iterator over samples *)

Module Iterator.
Import Bson.

(** A [SampleIterator], as its consumer sees it: [stream] is what the
    channel still delivers before it is closed, [sample] the current
    document ([None] is [nil]). *)
Record SampleIterator := mkSampleIterator {
  stream : list Document;
  sample : option Document
}.

(** [iter.Document()]. *)
Definition Document_of (iter : SampleIterator) : option Document :=
  sample iter.

(** [iter.Next(ctx)]; [ctx_done] tells whether the [select] took the
    [ctx.Done()] branch.  A receive from the closed channel gives [nil]. *)
Definition Next (ctx_done : bool) (iter : SampleIterator)
  : bool * SampleIterator :=
  if ctx_done then (false, iter)
  else
    match stream iter with
    | [] => (false, iter)
    | doc :: rest => (true, mkSampleIterator rest (Some doc))
    end.

(** The consumer's loop [for iter.Next(ctx) { ... iter.Document() ... }],
    for at most [fuel] turns, the first being turn [k]: the documents it
    sees and the iterator it is left with once [Next] has returned
    [false]. *)
Fixpoint drain (done : nat -> bool) (fuel : nat) (k : nat)
  (iter : SampleIterator) : list (option Document) * SampleIterator :=
  match fuel with
  | O => ([], iter)
  | S fuel' =>
      match Next (done k) iter with
      | (true, iter') =>
          let '(seen, last) := drain done fuel' (S k) iter' in
          (Document_of iter' :: seen, last)
      | (false, iter') => ([], iter')
      end
  end.

End Iterator.

(** ** Package [metrics]: [marshalMemExtra] *)

Module Metrics.
Import GoInt Bson.

(** [process.MemoryInfoExStat]: seven [uint64] counters. *)
Record MemoryInfoExStat := mkMemoryInfoExStat {
  RSS : Z;
  VMS : Z;
  Shared : Z;
  Text : Z;
  Lib : Z;
  Data : Z;
  Dirty : Z
}.

Definition uint64 (z : Z) : Z := uwrap 64 z.

(** [birch.EC.SubDocumentFromElements(key, elems...)]. *)
Definition EC_SubDocumentFromElements (key : string)
  (elems : list (string * Value)) : string * Value :=
  (key, VEmbeddedDocument elems).

(** [marshalMemExtra]; [None] is [nil], for the argument and the result. *)
Definition marshalMemExtra (mem : option MemoryInfoExStat)
  : option (string * Value) :=
  match mem with
  | None => None
  | Some mem =>
      Some (EC_SubDocumentFromElements "memExtra"
              [EC_Int64 "rss" (int64 (uint64 (RSS mem)));
               EC_Int64 "vms" (int64 (uint64 (VMS mem)));
               EC_Int64 "shared" (int64 (uint64 (Shared mem)));
               EC_Int64 "text" (int64 (uint64 (Text mem)));
               EC_Int64 "lib" (int64 (uint64 (Lib mem)));
               EC_Int64 "data" (int64 (uint64 (Data mem)));
               EC_Int64 "dirty" (int64 (uint64 (Dirty mem)))])
  end.

End Metrics.

(** ** More of command [ftdc]: the include-keys file *)

Module Keys.

(** A keys file seen through [bufio.Scanner]: the lines [Scan] delivers
    before it stops, and what [scanner.Err()] then returns. *)
Record KeyFile := mkKeyFile {
  lines : list string;
  scan_error : option string
}.

Inductive ReadError :=
| OpenFailed (file : string)
| ScanFailed (msg : string).

(** The loop [for scanner.Scan() { m[scanner.Text()] = true }]. *)
Definition scan_keys (ls : list string) : gmap string bool :=
  fold_left (fun m l => <[l := true]> m) ls ∅.

(** [readIncludeKeysFile]: the map ([None] is the [nil] map) and the
    error. *)
Definition readIncludeKeysFile (os_Open : string -> option KeyFile)
  (file : string) : option (gmap string bool) * option ReadError :=
  match os_Open file with
  | None => (None, Some (OpenFailed file))
  | Some f => (Some (scan_keys (lines f)), ScanFailed <$> scan_error f)
  end.

End Keys.

(** ** Further notions for the statements *)

Module More.
Import GoInt GoTime Bson.

(** The sum of a list, in the integers. *)
Definition total (l : list Z) : Z := fold_right Z.add 0 l.

(** The lines [decode] and [export] write for the chunks of one file. *)
Definition chunk_lines (w : Cmd.World) (start end_ : Time) (file : string)
  : list Cmd.Event :=
  match Cmd.os_Open w file with
  | Some f =>
      map (Cmd.LogChunk file)
        (List.filter (fun c => Cmd.Clip w c start end_) (Cmd.chunks_read f))
  | None => []
  end.

(** Every file of the list can be opened. *)
Definition all_open (w : Cmd.World) (files : list string) : Prop :=
  Forall (fun file => is_Some (Cmd.os_Open w file)) files.

(** All the samples of the chunks kept, in the order [export] writes
    them. *)
Definition samples_kept (w : Cmd.World) (start end_ : Time)
  (includeKeys : gmap string bool) (files : list string) : list Cmd.Doc :=
  flat_map (fun c => Cmd.Expand w c includeKeys)
    (Runs.kept w start end_ files).

(** How two entries for one key combine when chunk lists are merged one
    after the other. *)
Definition merge_entries (a b : Cmd.Metric) : option Cmd.Metric :=
  Some (Cmd.mkMetric (Cmd.Key a) (Cmd.Value a) (Cmd.Deltas a ++ Cmd.Deltas b)).

(** The first file of the list that cannot be opened. *)
Definition first_unopenable (w : Cmd.World) (files : list string)
  : option string :=
  List.find
    (fun file =>
       match Cmd.os_Open w file with
       | None => true
       | Some _ => false
       end) files.

(** A state of [decode] with the lines of the main goroutine left out. *)
Definition mute (st : Cmd.DecodeState) : Cmd.DecodeState :=
  Cmd.mkDecodeState (Cmd.cs st) (Cmd.count st) [] (Cmd.parse_log st).

(** A state of [export] with the messages of the parsing goroutines left
    out. *)
Definition forget_eparse_log (st : Cmd.ExportState) : Cmd.ExportState :=
  Cmd.mkExportState (Cmd.chunkCount st) (Cmd.ecount st) (Cmd.out st)
    (Cmd.elog st) [].

(** What a run of one of the loops of [export] does to the writer, given
    the documents [ds] the loop has to write. *)
Definition writes (ds : list Cmd.Doc) (st : Cmd.ExportState)
  (r : option Cmd.Error * Cmd.ExportState) : Prop :=
  Cmd.written (Cmd.out r.2)
  = Cmd.written (Cmd.out st) ++ take (Cmd.room (Cmd.out st)) ds
  /\ Cmd.room (Cmd.out r.2) = (Cmd.room (Cmd.out st) - length ds)%nat
  /\ (r.1 = None <-> (length ds <= Cmd.room (Cmd.out st))%nat)
  /\ (r.1 = None \/ exists c i, r.1 = Some (Cmd.ErrWrite c i)).

(** The count of [export] keeps step with the documents written: it is an
    [int], and it exceeds the number of documents the writer holds by a
    fixed amount, up to 64-bit overflow. *)
Definition counted (base : Z) (st : Cmd.ExportState) : Prop :=
  Cmd.ecount st = GoInt.int (Cmd.ecount st)
  /\ GoInt.int
       (Cmd.ecount st - Z.of_nat (length (Cmd.written (Cmd.out st))))
     = GoInt.int base.

(** The counters of a [MemoryInfoExStat] all fit in an [int64]. *)
Definition counters_fit (mem : Metrics.MemoryInfoExStat) : Prop :=
  Forall (fun v => 0 <= v < 2 ^ 63)
    [Metrics.RSS mem; Metrics.VMS mem; Metrics.Shared mem; Metrics.Text mem;
     Metrics.Lib mem; Metrics.Data mem; Metrics.Dirty mem].

(** The values that give exactly one series. *)
Definition one_series (v : Value) : bool :=
  match v with
  | VBoolean _ | VDouble _ | VInt32 _ | VInt64 _ | VDateTime _ => true
  | _ => false
  end.

End More.

(** ** Induction on values through their documents and arrays *)

Section Value_nested_ind.
Import Bson.
Variable P : Value -> Prop.
Hypothesis Hdoc :
  forall d, Forall (fun kv => P kv.2) d -> P (VEmbeddedDocument d).
Hypothesis Harr : forall vs, Forall P vs -> P (VArray (Some vs)).
Hypothesis Hleaf :
  forall v,
    match v with
    | VEmbeddedDocument _ | VArray (Some _) => False
    | _ => True
    end -> P v.

Lemma Value_nested_ind (v : Value) : P v.
Proof.
  revert v. fix IH 1. intros v. destruct v as
    [ | |d|[vs|]| | | | | | | | | | | | | | | | | ];
    try (apply Hleaf; exact I).
  - apply Hdoc. revert d. fix IHd 1. intros [|[k x] r].
    + constructor.
    + constructor; [apply IH | apply IHd].
  - apply Harr. revert vs. fix IHvs 1. intros [|x r].
    + constructor.
    + constructor; [apply IH | apply IHvs].
Qed.
End Value_nested_ind.

(** ** Integers in range *)

Section Integers.
Import GoInt.

Lemma int_small (z : Z) : min_int64 <= z <= max_int64 -> int z = z.
Proof.
  unfold int, swrap, min_int64, max_int64.
  change (2 ^ (64 - 1)) with 9223372036854775808.
  change (2 ^ 63) with 9223372036854775808.
  change (2 ^ 64) with 18446744073709551616.
  intros Hz. Z.div_mod_to_equations. lia.
Qed.

End Integers.

(** ** The flattener *)

Section Flatten.
Import GoInt GoTime Bson Ftdc Shape.
Local Open Scope string_scope.
Local Open Scope list_scope.

(** *** The calls of [metricForType], given back *)

Lemma flattenDocument_nil path : flattenDocument path [] = [].
Proof. reflexivity. Qed.

Lemma flattenDocument_cons path key val rest :
  flattenDocument path ((key, val) :: rest)
  = metricForType key path val ++ flattenDocument path rest.
Proof. reflexivity. Qed.

Lemma metricForType_document key path d :
  metricForType key path (VEmbeddedDocument d)
  = map (fun ne =>
           Metric_lit (path ++ [key]) (KeyName ne) (StartingValue ne))
      (flattenDocument (path ++ [key]) d).
Proof. reflexivity. Qed.

Lemma metricForType_array_some key path vs :
  metricForType key path (VArray (Some vs))
  = flattenArray_loop key path 0 vs.
Proof.
  simpl. generalize 0%nat as idx.
  induction vs as [|val rest IH]; intros idx; [reflexivity|].
  simpl. f_equal. apply IH.
Qed.

Lemma metricForType_array key path a :
  metricForType key path (VArray a) = flattenArray key path a.
Proof.
  destruct a as [vs|]; [apply metricForType_array_some | reflexivity].
Qed.

(** *** Paths in the result *)

(** Whatever the nesting, the wrapping loop of the embedded-document case
    overwrites [ParentPath]: a metric carries the path the flattener was
    called with, or that path and one more key. *)
Lemma metricForType_path_shallow val :
  forall key path m,
    m ∈ metricForType key path val ->
    ParentPath m = path \/ exists k, ParentPath m = path ++ [k].
Proof.
  induction val as [d IH|vs IH|v Hv] using Value_nested_ind;
    intros key path m Hm.
  - rewrite metricForType_document in Hm.
    apply list_elem_of_fmap in Hm as (ne & -> & _).
    right. exists key. reflexivity.
  - rewrite metricForType_array_some in Hm.
    revert Hm. generalize 0%nat as idx.
    induction IH as [|x r Hx _ IHr]; intros idx Hm; simpl in Hm.
    + by apply elem_of_nil in Hm.
    + apply elem_of_app in Hm as [Hm|Hm]; [by eapply Hx | by eapply IHr].
  - destruct v as [ | | |[?|]| | | |[]| | | | | | | | | | | | | ];
      simpl in Hm; try (by apply elem_of_nil in Hm); try contradiction;
      repeat (apply elem_of_cons in Hm as [->|Hm]);
      try (by apply elem_of_nil in Hm); by left.
Qed.

Lemma flattenDocument_path_shallow path d m :
  m ∈ flattenDocument path d ->
  ParentPath m = path \/ exists k, ParentPath m = path ++ [k].
Proof.
  induction d as [|[k v] r IH]; intros Hm.
  - by apply elem_of_nil in Hm.
  - rewrite flattenDocument_cons in Hm.
    apply elem_of_app in Hm as [Hm|Hm]; [|by apply IH].
    by eapply metricForType_path_shallow.
Qed.

(** C1, at a leaf two documents deep: the reference document
    [{a: {b: {c: 1}}}] flattens to one metric for the leaf [c]; its
    ancestor keys are [a], [b], but the path it carries is [a] alone. *)
Theorem flatten_nested_path_drops_inner_keys :
  flattenDocument []
    [("a", VEmbeddedDocument [("b", VEmbeddedDocument [("c", VInt32 1)])])]
  = [Metric_lit ["a"] "c" 1].
Proof. reflexivity. Qed.

(** C2: the reference document
    [{a: true, b: "ignored", c: {d: 3.7}, t: Timestamp(5,2)}] flattens to
    exactly four metrics, [a], [c.d], [t], [t.inc] in this order, with the
    starting values 1, 3, 5000, 2; the string [b] gives none.  The double
    3.7 is the binary64 number 8331659310635418 * 2^-51. *)
Theorem flatten_type_mix :
  let reference :=
    [("a", VBoolean true);
     ("b", VString "ignored");
     ("c", VEmbeddedDocument
             [("d", VDouble (S754_finite false 8331659310635418 (-51)))]);
     ("t", VTimestamp 5 2)] in
  flattenDocument [] reference
  = [Metric_lit [] "a" 1; Metric_lit ["c"] "d" 3;
     Metric_lit [] "t" 5000; Metric_lit [] "t.inc" 2]
  /\ map Key (flattenDocument [] reference) = ["a"; "c.d"; "t"; "t.inc"]
  /\ map StartingValue (flattenDocument [] reference) = [1; 3; 5000; 2]%Z.
Proof. repeat split; reflexivity. Qed.

(** *** Shape alone decides the schema *)

Lemma same_shape_document_cons k1 x1 r1 k2 x2 r2 :
  same_shape (VEmbeddedDocument ((k1, x1) :: r1))
    (VEmbeddedDocument ((k2, x2) :: r2))
  = bool_decide (k1 = k2) && same_shape x1 x2
    && same_shape (VEmbeddedDocument r1) (VEmbeddedDocument r2).
Proof. reflexivity. Qed.

Lemma same_shape_array_cons x1 r1 x2 r2 :
  same_shape (VArray (Some (x1 :: r1))) (VArray (Some (x2 :: r2)))
  = same_shape x1 x2 && same_shape (VArray (Some r1)) (VArray (Some r2)).
Proof. reflexivity. Qed.

Lemma schema_of_wrapped path l1 l2 :
  map schema_entry l1 = map schema_entry l2 ->
  map schema_entry
    (map (fun ne => Metric_lit path (KeyName ne) (StartingValue ne)) l1)
  = map schema_entry
      (map (fun ne => Metric_lit path (KeyName ne) (StartingValue ne)) l2).
Proof.
  revert l2. induction l1 as [|m1 l1 IH]; intros [|m2 l2] H;
    try discriminate; [reflexivity|].
  simpl in *. injection H as _ Hk Hl. rewrite Hk. f_equal. by apply IH.
Qed.

Lemma metricForType_shape v1 :
  forall v2 key path,
    same_shape v1 v2 = true ->
    map schema_entry (metricForType key path v1)
    = map schema_entry (metricForType key path v2).
Proof.
  induction v1 as [d1 IH|vs1 IH|v1 Hv1] using Value_nested_ind;
    intros v2 key path H.
  - destruct v2 as [ | |d2| | | | | | | | | | | | | | | | | | ];
      try discriminate H.
    rewrite !metricForType_document. apply schema_of_wrapped.
    generalize (path ++ [key]) as p. revert d2 H.
    induction IH as [|[k1 x1] r1 Hx _ IHr]; intros [|[k2 x2] r2] H p;
      try discriminate H; [reflexivity|].
    rewrite same_shape_document_cons in H.
    apply andb_prop in H as [H Hr]. apply andb_prop in H as [Hk Hx12].
    apply bool_decide_eq_true in Hk as <-.
    rewrite !flattenDocument_cons, !map_app. f_equal.
    + by apply Hx.
    + by apply IHr.
  - destruct v2 as [ | | |[vs2|]| | | | | | | | | | | | | | | | | ];
      try discriminate H.
    rewrite !metricForType_array_some.
    generalize 0%nat as idx. revert vs2 H.
    induction IH as [|x1 r1 Hx _ IHr]; intros [|x2 r2] H idx;
      try discriminate H; [reflexivity|].
    rewrite same_shape_array_cons in H. apply andb_prop in H as [Hx12 Hr].
    simpl. rewrite !map_app. f_equal.
    + by apply Hx.
    + by apply IHr.
  - destruct v1 as [ | | |[?|]| | | |b1| | | | | | | | | | | | | ];
      try contradiction;
      destruct v2 as [ | | |[?|]| | | |b2| | | | | | | | | | | | | ];
      try discriminate H; try reflexivity.
    by destruct b1, b2.
Qed.

(** C3: two reference documents of the same shape (same keys in the same
    order, values of the same types, whatever the leaf values) flatten to
    the same ordered sequence of (path, key) pairs. *)
Theorem flatten_shape_only (path : list string) (d1 d2 : Document) :
  same_shape_doc d1 d2 = true ->
  map schema_entry (flattenDocument path d1)
  = map schema_entry (flattenDocument path d2).
Proof.
  revert d2. induction d1 as [|[k1 x1] r1 IH]; intros [|[k2 x2] r2] H;
    try discriminate H; [reflexivity|].
  unfold same_shape_doc in H. rewrite same_shape_document_cons in H.
  apply andb_prop in H as [H Hr]. apply andb_prop in H as [Hk Hx].
  apply bool_decide_eq_true in Hk as <-.
  rewrite !flattenDocument_cons, !map_app. f_equal.
  - by apply metricForType_shape.
  - by apply IH.
Qed.

Lemma flatten_shape_only_witness :
  same_shape_doc [("n", VInt32 1); ("s", VEmbeddedDocument [("t", VBoolean true)])]
    [("n", VInt32 7); ("s", VEmbeddedDocument [("t", VBoolean false)])]
  = true
  /\ map schema_entry
       (flattenDocument []
          [("n", VInt32 1); ("s", VEmbeddedDocument [("t", VBoolean true)])])
     = map schema_entry
         (flattenDocument []
            [("n", VInt32 7);
             ("s", VEmbeddedDocument [("t", VBoolean false)])]).
Proof.
  split; [reflexivity|]. apply (flatten_shape_only []). reflexivity.
Defined.

(** *** Datetime leaves *)

(** A datetime within the range of [int] (but for its lowest second) gives
    the whole seconds before it, in milliseconds: the count of
    milliseconds rounded down to a multiple of 1000. *)
Lemma metricForType_datetime_whole_seconds (key : string)
  (path : list string) (ms : Z) :
  min_int64 + 1000 <= ms <= max_int64 ->
  metricForType key path (VDateTime ms)
  = [Metric_lit path key (1000 * (ms / 1000))].
Proof.
  intros Hms.
  assert (Hsmall : forall z,
             -9223372036854775808 <= z <= 9223372036854775807 ->
             swrap 64 z = z).
  { intros z Hz. apply int_small. unfold min_int64, max_int64.
    change (2 ^ 63) with 9223372036854775808. lia. }
  unfold min_int64, max_int64 in Hms.
  change (2 ^ 63) with 9223372036854775808 in Hms.
  simpl. unfold DateTime, Unix, Time_Unix, int, int64.
  rewrite (Hsmall ms) by lia.
  pose proof (Z.quot_rem' ms 1000) as Hqr.
  pose proof (Z.rem_bound_abs ms 1000 ltac:(lia)) as Hr.
  set (q := Z.quot ms 1000) in *. set (r := Z.rem ms 1000) in *.
  assert (Hq0 : Z.quot (r * 1000000) 1000000000 = 0).
  { apply Z.quot_small_iff; lia. }
  rewrite Hq0. do 2 f_equal.
  destruct (Z.ltb_spec (r * 1000000) 0) as [Hneg|Hpos]; simpl.
  - replace (r * 1000000 - 0 * 1000000000) with (r * 1000000) by lia.
    destruct (Z.ltb_spec (r * 1000000) 0); [|lia]. simpl.
    rewrite (Hsmall (q + 0)) by lia. rewrite (Hsmall (q + 0 - 1)) by lia.
    rewrite (Hsmall (q + 0 - 1)) by lia. rewrite Hsmall by lia.
    Z.div_mod_to_equations. lia.
  - destruct (Z.leb_spec 1000000000 (r * 1000000)); [lia|]. simpl.
    rewrite (Hsmall q) by lia. rewrite Hsmall by lia.
    Z.div_mod_to_equations. lia.
Qed.
(** C4, at the datetime 1500 ms after the epoch: the metric starts at
    1000, the whole seconds in milliseconds, not at 1500. *)
Theorem flatten_datetime_drops_milliseconds :
  metricForType "ts" [] (VDateTime 1500) = [Metric_lit [] "ts" 1000].
Proof. reflexivity. Qed.

(** *** Arrays without an iterator *)

(** C10: when the iterator of an array cannot be constructed,
    [flattenArray] returns the empty metric list; its result type has no
    room for an error, and [metricForType] passes the empty list on. *)
Theorem flattenArray_iterator_error (key : string) (path : list string)
  (a : Array) (err : IterError) :
  NewArrayIterator a = inl err ->
  flattenArray key path a = []
  /\ metricForType key path (VArray a) = [].
Proof.
  intros H. rewrite metricForType_array. unfold flattenArray.
  by rewrite H.
Qed.

Lemma flattenArray_iterator_error_witness :
  NewArrayIterator None = inl ErrNilArray
  /\ flattenArray "k" ["p"] None = []
  /\ metricForType "k" ["p"] (VArray None) = [].
Proof.
  split; [reflexivity|].
  apply (flattenArray_iterator_error "k" ["p"] None ErrNilArray).
  reflexivity.
Defined.

End Flatten.

(** ** The header-field decoder *)

Section UnpackInt.
Import GoInt Ftdc Shape.

Lemma byte_range (b : Byte.byte) : 0 <= Z.of_N (Byte.to_N b) < 2 ^ 8.
Proof. pose proof (Byte.to_N_bounded b). lia. Qed.

Lemma byte_of_Z_to_N (z : Z) :
  0 <= z < 2 ^ 8 -> Z.of_N (Byte.to_N (byte_of_Z z)) = z.
Proof.
  intros Hz. unfold byte_of_Z.
  destruct (Byte.of_N (Z.to_N z)) as [b|] eqn:E; simpl.
  - apply Byte.to_of_N in E. lia.
  - apply Byte.of_N_None_iff in E. lia.
Qed.

Lemma land_low_high (a b k : Z) :
  0 <= k -> 0 <= a < 2 ^ k -> Z.land a (b * 2 ^ k) = 0.
Proof.
  intros Hk Ha. apply Z.bits_inj'. intros n Hn.
  rewrite Z.land_spec, Z.bits_0.
  destruct (Z.lt_ge_cases n k) as [Hlt|Hge].
  - rewrite Z.mul_pow2_bits_low by lia. apply andb_false_r.
  - rewrite <- (Z.mod_small a (2 ^ k)) by lia.
    rewrite Z.mod_pow2_bits_high by lia. reflexivity.
Qed.

Lemma lor_low_high (a b k : Z) :
  0 <= k -> 0 <= a < 2 ^ k -> Z.lor a (b * 2 ^ k) = a + b * 2 ^ k.
Proof.
  intros Hk Ha. symmetry. apply Z.add_nocarry_lor.
  by apply land_low_high.
Qed.

Lemma shl32_byte (x k : Z) :
  0 <= x < 2 ^ 8 -> 0 <= k <= 24 -> shl32 (uint32 x) k = x * 2 ^ k.
Proof.
  intros Hx Hk. unfold shl32, uint32, uwrap.
  rewrite (Z.mod_small x) by lia.
  rewrite Z.shiftl_mul_pow2 by lia.
  apply Z.mod_small.
  assert (2 ^ k <= 2 ^ 24) by (apply Z.pow_le_mono_r; lia).
  nia.
Qed.

Lemma int_int32_unsigned (u : Z) :
  0 <= u < 2 ^ 32 ->
  int (int32 u) = if u <? 2 ^ 31 then u else u - 2 ^ 32.
Proof.
  intros Hu. unfold int, int32, swrap.
  change (2 ^ (32 - 1)) with 2147483648.
  change (2 ^ 32) with 4294967296 in *.
  change (2 ^ (64 - 1)) with 9223372036854775808.
  change (2 ^ 64) with 18446744073709551616.
  change (2 ^ 31) with 2147483648.
  destruct (Z.ltb_spec u 2147483648); Z.div_mod_to_equations; lia.
Qed.

Lemma unpackInt_four (b0 b1 b2 b3 : Byte.byte) :
  unpackInt [b0; b1; b2; b3]
  = Some (let u := le_uint32 b0 b1 b2 b3 in
          if u <? 2 ^ 31 then u else u - 2 ^ 32).
Proof.
  unfold unpackInt, le_uint32. simpl.
  pose proof (byte_range b0) as H0. pose proof (byte_range b1) as H1.
  pose proof (byte_range b2) as H2. pose proof (byte_range b3) as H3.
  set (x0 := Z.of_N (Byte.to_N b0)) in *.
  set (x1 := Z.of_N (Byte.to_N b1)) in *.
  set (x2 := Z.of_N (Byte.to_N b2)) in *.
  set (x3 := Z.of_N (Byte.to_N b3)) in *.
  rewrite !shl32_byte by lia.
  rewrite (lor_low_high (x0 * 2 ^ 0) x1 8) by lia.
  rewrite (lor_low_high _ x2 16) by lia.
  rewrite (lor_low_high _ x3 24) by lia.
  f_equal. rewrite int_int32_unsigned by lia. cbv zeta.
  match goal with
  | |- (if ?a <? _ then _ else _) = (if ?b <? _ then _ else _) =>
      replace a with b by lia
  end.
  reflexivity.
Qed.

Lemma le_uint32_le_bytes32 (v : Z) :
  0 <= v < 2 ^ 32 ->
  match le_bytes32 v with
  | [b0; b1; b2; b3] => le_uint32 b0 b1 b2 b3 = v
  | _ => False
  end.
Proof.
  intros Hv. unfold le_bytes32, le_uint32.
  rewrite !byte_of_Z_to_N by (apply Z.mod_pos_bound; lia).
  change (2 ^ 8) with 256. change (2 ^ 16) with 65536.
  change (2 ^ 24) with 16777216. change (2 ^ 32) with 4294967296 in Hv.
  Z.div_mod_to_equations. lia.
Qed.

(** C8, as the code has it: the four bytes are read little-endian and the
    32-bit result is taken as signed.  With [u] the little-endian unsigned
    value of the bytes, [unpackInt] returns [u] when [u < 2^31] and
    [u - 2^32] otherwise; so a value below 2^31 round-trips unchanged and a
    value from 2^31 up comes back lowered by 2^32. *)
Theorem unpackInt_little_endian_signed (b0 b1 b2 b3 : Byte.byte) (v : Z) :
  unpackInt [b0; b1; b2; b3]
  = Some (let u := le_uint32 b0 b1 b2 b3 in
          if u <? 2 ^ 31 then u else u - 2 ^ 32)
  /\ (0 <= v < 2 ^ 32 ->
      unpackInt (le_bytes32 v)
      = Some (if v <? 2 ^ 31 then v else v - 2 ^ 32)).
Proof.
  split; [apply unpackInt_four|].
  intros Hv. pose proof (le_uint32_le_bytes32 v Hv) as Hle.
  unfold le_bytes32 in *. rewrite unpackInt_four. cbv zeta.
  by rewrite Hle.
Qed.

Lemma unpackInt_little_endian_signed_witness :
  0 <= 3000000000 < 2 ^ 32
  /\ unpackInt [Byte.x01; Byte.x02; Byte.x00; Byte.x00] = Some 513
  /\ unpackInt (le_bytes32 3000000000) = Some (-1294967296).
Proof.
  split; [lia|].
  destruct (unpackInt_little_endian_signed
              Byte.x01 Byte.x02 Byte.x00 Byte.x00 3000000000) as [H1 H2].
  split; [exact H1 | apply H2; lia].
Defined.

(** C8 as stated fails: the bytes [00 00 00 80] are the little-endian
    unsigned value 2^31, and [unpackInt] returns -2^31. *)
Lemma unpackInt_high_bit_negative :
  le_uint32 Byte.x00 Byte.x00 Byte.x00 Byte.x80 = 2 ^ 31
  /\ unpackInt [Byte.x00; Byte.x00; Byte.x00; Byte.x80] = Some (- 2 ^ 31)
  /\ unpackInt [Byte.x00; Byte.x00; Byte.x00; Byte.x80]
     <> Some (le_uint32 Byte.x00 Byte.x00 Byte.x00 Byte.x80).
Proof.
  split; [reflexivity|]. split; [reflexivity|].
  intros H. vm_compute in H. discriminate H.
Qed.

End UnpackInt.

(** ** The sample iterator *)

Section StreamDocuments.
Import GoInt Bson Ftdc Shape.

Lemma sample_doc_some (ms : list Metric) (i : nat) :
  Forall (fun m => (i < length (Values m))%nat) ms ->
  exists doc, sample_doc ms i = Some doc /\ Forall2 (sample_of i) ms doc.
Proof.
  induction 1 as [|m ms Hm _ (doc & Hdoc & Hall)]; simpl.
  - exists []. split; [reflexivity | constructor].
  - apply lookup_lt_is_Some_2 in Hm as [v Hv].
    rewrite Hv, Hdoc. simpl.
    exists (EC_Int64 (Key m) v :: doc). split; [reflexivity|].
    constructor; [|assumption]. exists v. split; [assumption | reflexivity].
Qed.

Lemma stream_from_closed (c : Chunk) (done : nat -> bool) (n : nat) :
  (forall j, done j = false) ->
  forall i,
    (forall j, (i <= j < i + n)%nat ->
               exists doc, sample_doc (metrics c) j = Some doc) ->
    exists docs,
      stream_from c done n i = Closed docs
      /\ length docs = n
      /\ forall j, (j < n)%nat ->
                   docs !! j = sample_doc (metrics c) (i + j).
Proof.
  intros Hdone. induction n as [|n IH]; intros i Hdocs; simpl.
  - exists []. repeat split. intros j Hj. lia.
  - destruct (Hdocs i ltac:(lia)) as [doc Hdoc]. rewrite Hdoc, Hdone.
    destruct (IH (S i)) as (docs & Hs & Hlen & Hnth).
    { intros j Hj. apply Hdocs. lia. }
    rewrite Hs. simpl. exists (doc :: docs).
    split; [reflexivity|]. split; [simpl; lia|].
    intros [|j] Hj; simpl.
    + by rewrite Nat.add_0_r.
    + rewrite Hnth by lia. f_equal. lia.
Qed.

(** C9, as the code has it: for a chunk whose metrics all hold more than
    [nPoints] values,
    and a consumer that takes every document (the context is never done),
    [streamDocuments] sends exactly [nPoints + 1] documents and closes the
    channel; the [i]-th document, for [i] from 0 to [nPoints], has exactly
    one [Int64] element per metric, in the chunk's metric order, keyed by
    the metric's key and holding the metric's [i]-th value. *)
Theorem streamDocuments_emits_every_sample (c : Chunk) (done : nat -> bool) :
  (forall i, done i = false) ->
  0 <= nPoints c < max_int64 ->
  Forall (fun m => nPoints c < Z.of_nat (length (Values m))) (metrics c) ->
  exists docs,
    streamDocuments c done = Closed docs
    /\ Z.of_nat (length docs) = nPoints c + 1
    /\ forall i, Z.of_nat i <= nPoints c ->
         exists doc,
           docs !! i = Some doc
           /\ Forall2 (sample_of i) (metrics c) doc.
Proof.
  intros Hdone Hn Hvals. unfold streamDocuments.
  rewrite int_small by (unfold min_int64, max_int64 in *; lia).
  assert (Hdocs : forall j, (j < Z.to_nat (nPoints c + 1))%nat ->
            exists doc, sample_doc (metrics c) j = Some doc
                        /\ Forall2 (sample_of j) (metrics c) doc).
  { intros j Hj. apply sample_doc_some.
    eapply Forall_impl; [exact Hvals|]. simpl. intros m Hm. lia. }
  destruct (stream_from_closed c done (Z.to_nat (nPoints c + 1)) Hdone 0%nat)
    as (docs & Hs & Hlen & Hnth).
  { intros j Hj. destruct (Hdocs j ltac:(lia)) as (doc & Hdoc & _). eauto. }
  exists docs. split; [assumption|]. split; [lia|].
  intros i Hi. destruct (Hdocs i ltac:(lia)) as (doc & Hdoc & Hall).
  exists doc. split; [|assumption].
  rewrite Hnth by lia. simpl. assumption.
Qed.

Lemma streamDocuments_emits_every_sample_witness :
  exists docs,
    streamDocuments
      (mkChunk [mkMetric [] "a" 1 [1; 2; 3];
                mkMetric ["p"%string] "b" 4 [4; 5; 6]] 2)
      (fun _ => false)
    = Closed docs
    /\ Z.of_nat (length docs) = 3.
Proof.
  destruct (streamDocuments_emits_every_sample
              (mkChunk [mkMetric [] "a" 1 [1; 2; 3];
                        mkMetric ["p"%string] "b" 4 [4; 5; 6]] 2)
              (fun _ => false)) as (docs & Hs & Hlen & _).
  - reflexivity.
  - unfold max_int64; simpl; lia.
  - repeat constructor.
  - exists docs. split; [exact Hs | exact Hlen].
Defined.

(** C9 as stated fails: a chunk with [nPoints] 2 whose metric holds one
    value per point, two values, gives two documents; in the third turn
    [m.Values[2]] is out of range and the goroutine dies: it has not sent
    [nPoints + 1] documents and does not close the channel in the normal
    way. *)
Lemma streamDocuments_one_value_per_point_panics :
  streamDocuments (mkChunk [mkMetric [] "a" 1 [1; 2]] 2) (fun _ => false)
  = Panicked [[("a"%string, VInt64 1)]; [("a"%string, VInt64 2)]]
  /\ Z.of_nat
       (length
          (sent (streamDocuments (mkChunk [mkMetric [] "a" 1 [1; 2]] 2)
                   (fun _ => false))))
     <> nPoints (mkChunk [mkMetric [] "a" 1 [1; 2]] 2) + 1.
Proof. split; [reflexivity|]. vm_compute. discriminate. Qed.

End StreamDocuments.

(** ** [decode] and [export] *)

Section Decode.
Import GoInt GoTime Cmd Runs.
Local Open Scope string_scope.
Local Open Scope list_scope.

(** *** Merge mode *)

Lemma merge_flat (chunks : list Chunk) (total : gmap string Metric) :
  fold_left (fun total c => fold_left merge_metric (Metrics c) total)
    chunks total
  = fold_left merge_metric (flat_map Metrics chunks) total.
Proof.
  revert total. induction chunks as [|c chunks IH]; intros total; simpl.
  - reflexivity.
  - rewrite fold_left_app. apply IH.
Qed.

Lemma merge_metric_lookup_ne (total : gmap string Metric) (m : Metric)
  (k : string) :
  Key m <> k -> merge_metric total m !! k = total !! k.
Proof.
  intros Hne. unfold merge_metric.
  destruct (total !! Key m); by rewrite lookup_insert_ne.
Qed.

Lemma merge_metric_lookup_eq (total : gmap string Metric) (m : Metric) :
  merge_metric total m !! Key m
  = Some (match total !! Key m with
          | Some t => mkMetric (Key m) (Value t) (Deltas t ++ Deltas m)
          | None => m
          end).
Proof.
  unfold merge_metric.
  destruct (total !! Key m); by rewrite lookup_insert_eq.
Qed.

Lemma fold_merge_lookup (ms : list Metric) :
  forall (total : gmap string Metric) (k : string),
    fold_left merge_metric ms total !! k
    = match total !! k, filter (fun m => Key m = k) ms with
      | o, [] => o
      | Some t, m :: ms' =>
          Some (mkMetric k (Value t)
                  (Deltas t ++ flat_map Deltas (m :: ms')))
      | None, m :: ms' =>
          Some (mkMetric k (Value m) (flat_map Deltas (m :: ms')))
      end.
Proof.
  induction ms as [|m ms IH]; intros total k; simpl.
  - by destruct (total !! k).
  - rewrite IH. destruct (decide (Key m = k)) as [<-|Hne].
    + rewrite filter_cons_True by done.
      rewrite merge_metric_lookup_eq.
      destruct (total !! Key m) as [t|];
        destruct (filter (fun m0 => Key m0 = Key m) ms) as [|m' ms'];
        simpl; rewrite ?app_nil_r, <- ?app_assoc; try reflexivity.
      by destruct m.
    + rewrite filter_cons_False by done.
      by rewrite merge_metric_lookup_ne.
Qed.

(** C5: the map that merge mode builds from the chunks [chunks] sends a
    key to nothing when no metric has it, and otherwise to the metric
    with that key, the starting value of its first occurrence, and the
    deltas of all its occurrences appended in chunk order; nothing else
    about the chunks (their times in particular) is looked at. *)
Theorem merge_concatenates_deltas (chunks : list Chunk) (k : string) :
  merge chunks !! k
  = match occurrences k chunks with
    | [] => None
    | m :: ms => Some (mkMetric k (Value m) (flat_map Deltas (m :: ms)))
    end.
Proof.
  unfold merge, occurrences. rewrite merge_flat, fold_merge_lookup.
  by rewrite lookup_empty.
Qed.

(** *** The loops of [decode] *)

Lemma fold_decode_chunk (w : World) (start end_ : Time) (silent : bool)
  (file : string) (chunks : list Chunk) :
  forall st,
    let st' := fold_left (decode_chunk w start end_ silent file) chunks st in
    cs st' = cs st ++ List.filter (fun c => Clip w c start end_) chunks
    /\ parse_log st' = parse_log st.
Proof.
  induction chunks as [|c chunks IH]; intros st; simpl.
  - by rewrite app_nil_r.
  - destruct (IH (decode_chunk w start end_ silent file st c)) as [Hcs Hlog].
    rewrite Hcs, Hlog. unfold decode_chunk.
    destruct (Clip w c start end_); simpl; [|done].
    by rewrite <- app_assoc.
Qed.

Lemma kept_cons_open (w : World) (start end_ : Time) (file : string)
  (f : File) (rest : list string) :
  os_Open w file = Some f ->
  kept w start end_ (file :: rest)
  = List.filter (fun c => Clip w c start end_) (chunks_read f)
    ++ kept w start end_ rest.
Proof.
  intros Hf. unfold kept, chunks_of. simpl. rewrite Hf.
  apply List.filter_app.
Qed.

Lemma decode_files_kept (w : World) (start end_ : Time) (silent : bool)
  (files : list string) :
  forall st st',
    decode_files w start end_ silent files st = (None, st') ->
    cs st' = cs st ++ kept w start end_ files.
Proof.
  induction files as [|file rest IH]; intros st st' H; simpl in H.
  - injection H as <-. unfold kept. simpl. by rewrite app_nil_r.
  - destruct (os_Open w file) as [f|] eqn:Hf; [|discriminate H].
    apply IH in H. rewrite H.
    rewrite (proj1 (fold_decode_chunk w start end_ silent file _ _)).
    simpl. rewrite (kept_cons_open _ _ _ _ f) by done.
    by rewrite app_assoc.
Qed.

Lemma decode_returns (w : World) (files : list string) (tStart tEnd : string)
  (silent shouldMerge : bool) (result : Output) :
  returned (decode w files tStart tEnd silent shouldMerge) = inr result ->
  exists start end_,
    parseTimes w tStart tEnd = inr (start, end_)
    /\ result = if shouldMerge
                then Merged (merge (kept w start end_ files))
                else ChunkList (kept w start end_ files).
Proof.
  unfold decode. case_bool_decide; [discriminate|].
  destruct (parseTimes w tStart tEnd) as [e|[start end_]]; [discriminate|].
  destruct (decode_files _ _ _ _ _ _) as [[e|] st] eqn:Hfiles;
    [discriminate|].
  apply decode_files_kept in Hfiles. simpl in Hfiles.
  case_bool_decide; [discriminate|].
  intros Hret. exists start, end_. split; [reflexivity|].
  rewrite <- Hfiles. destruct shouldMerge; simpl in Hret; congruence.
Qed.

(** *** Parse failures *)

Lemma parseTimes_without_parse_errors (w : World) (tStart tEnd : string) :
  parseTimes (without_parse_errors w) tStart tEnd = parseTimes w tStart tEnd.
Proof. reflexivity. Qed.









(** *** The loops of [export] *)

Lemma export_docs_written (ds : list Doc) :
  forall i st st',
    export_docs ds i st = (None, st') ->
    written (out st') = written (out st) ++ ds.
Proof.
  induction ds as [|d ds IH]; intros i st st' Hrun; simpl in Hrun.
  - injection Hrun as <-. by rewrite app_nil_r.
  - unfold Encode in Hrun. destruct (room (out st)); [discriminate Hrun|].
    apply IH in Hrun. rewrite Hrun. simpl. by rewrite <- app_assoc.
Qed.

Lemma export_chunks_written (w : World) (start end_ : Time) (silent : bool)
  (includeKeys : gmap string bool) (file : string) (chunks : list Chunk) :
  forall st st',
    export_chunks w start end_ silent includeKeys file chunks st
    = (None, st') ->
    written (out st')
    = written (out st)
      ++ flat_map (fun c => Expand w c includeKeys)
           (List.filter (fun c => Clip w c start end_) chunks).
Proof.
  induction chunks as [|c chunks IH]; intros st st' Hrun; simpl in Hrun.
  - injection Hrun as <-. by rewrite app_nil_r.
  - simpl. destruct (Clip w c start end_); simpl in *; [|by apply IH].
    destruct (export_docs _ _ _) as [[e|] st1] eqn:Hdocs;
      [discriminate Hrun|].
    apply export_docs_written in Hdocs. apply IH in Hrun.
    rewrite Hrun, Hdocs. simpl. by rewrite <- app_assoc.
Qed.

Lemma export_files_written (w : World) (start end_ : Time) (silent : bool)
  (includeKeys : gmap string bool) (files : list string) :
  forall st st',
    export_files w start end_ silent includeKeys files st = (None, st') ->
    written (out st')
    = written (out st)
      ++ flat_map (fun c => Expand w c includeKeys)
           (kept w start end_ files).
Proof.
  induction files as [|file rest IH]; intros st st' Hrun; simpl in Hrun.
  - injection Hrun as <-. unfold kept. simpl. by rewrite app_nil_r.
  - destruct (os_Open w file) as [f|] eqn:Hf; [|discriminate Hrun].
    destruct (export_chunks _ _ _ _ _ _ _ _) as [[e|] st1] eqn:Hchunks;
      [discriminate Hrun|].
    apply export_chunks_written in Hchunks. apply IH in Hrun.
    simpl in Hrun. rewrite Hrun, Hchunks.
    rewrite (kept_cons_open _ _ _ _ f) by done.
    by rewrite flat_map_app, <- app_assoc.
Qed.

Lemma export_returns_nil (w : World) (files : list string)
  (tStart tEnd : string) (silent : bool) (wr : Writer)
  (includeKeys : gmap string bool) (st : ExportState) :
  export w files tStart tEnd silent wr includeKeys = (None, st) ->
  exists start end_,
    parseTimes w tStart tEnd = inr (start, end_)
    /\ written (out st)
       = written wr
         ++ flat_map (fun c => Expand w c includeKeys)
              (kept w start end_ files).
Proof.
  unfold export. case_bool_decide; [discriminate|].
  destruct (parseTimes w tStart tEnd) as [e|[start end_]]; [discriminate|].
  destruct (export_files _ _ _ _ _ _ _) as [[e|] st1] eqn:Hfiles;
    [discriminate|].
  apply export_files_written in Hfiles. intros Hrun.
  injection Hrun as <-. exists start, end_. split; [reflexivity|].
  exact Hfiles.
Qed.

(** C7: for a clip window, given as the two time strings, what [decode]
    returns is built from [kept], the chunks of the files that pass the
    chunk-level clip test, each exactly as it was read and in stream
    order (the list itself, or its merge in merge mode); and what [export]
    has written when it returns without error is, after what the writer
    held, every sample of every chunk of [kept], chunk after chunk.  A
    chunk that fails the test contributes nothing, and no chunk is cut
    down to a part of its samples. *)
Theorem clip_keeps_or_skips_whole_chunks (w : World) (files : list string)
  (tStart tEnd : string) (silent shouldMerge : bool) (wr : Writer)
  (includeKeys : gmap string bool) :
  (forall result,
      returned (decode w files tStart tEnd silent shouldMerge) = inr result ->
      exists start end_,
        parseTimes w tStart tEnd = inr (start, end_)
        /\ result = if shouldMerge
                    then Merged (merge (kept w start end_ files))
                    else ChunkList (kept w start end_ files))
  /\ (forall st,
        export w files tStart tEnd silent wr includeKeys = (None, st) ->
        exists start end_,
          parseTimes w tStart tEnd = inr (start, end_)
          /\ written (out st)
             = written wr
               ++ flat_map (fun c => Expand w c includeKeys)
                    (kept w start end_ files)).
Proof.
  split.
  - intros result. apply decode_returns.
  - intros st. apply export_returns_nil.
Qed.

Lemma clip_keeps_or_skips_whole_chunks_witness :
  returned (decode small_world ["metrics.0"] "t2" "" true false)
  = inr (ChunkList [chunk_b])
  /\ (export small_world ["metrics.0"] "t2" "" true (mkWriter [] 10) ∅).1
     = None
  /\ exists start end_,
       parseTimes small_world "t2" "" = inr (start, end_)
       /\ ChunkList [chunk_b]
          = ChunkList (kept small_world start end_ ["metrics.0"])
       /\ written
            (out (export small_world ["metrics.0"] "t2" "" true
                    (mkWriter [] 10) ∅).2)
          = [] ++ flat_map (fun c => Expand small_world c ∅)
                    (kept small_world start end_ ["metrics.0"]).
Proof.
  destruct (clip_keeps_or_skips_whole_chunks small_world ["metrics.0"]
              "t2" "" true false (mkWriter [] 10) ∅) as [Hdecode Hexport].
  split; [reflexivity|]. split; [reflexivity|].
  destruct (Hdecode (ChunkList [chunk_b]) eq_refl)
    as (start & end_ & Htimes & Hresult).
  destruct (Hexport
              (export small_world ["metrics.0"] "t2" "" true
                 (mkWriter [] 10) ∅).2 eq_refl)
    as (start' & end_' & Htimes' & Hwritten).
  exists start, end_. split; [exact Htimes|]. split; [exact Hresult|].
  rewrite Htimes in Htimes'. injection Htimes' as <- <-. exact Hwritten.
Defined.

End Decode.

(** ** More on the flattener *)

Section FlattenMore.
Import GoInt GoTime Bson Ftdc Shape.
Local Open Scope string_scope.
Local Open Scope list_scope.

Lemma swrap64_range (z : Z) : min_int64 <= swrap 64 z <= max_int64.
Proof.
  unfold swrap, min_int64, max_int64.
  change (2 ^ (64 - 1)) with 9223372036854775808.
  change (2 ^ 63) with 9223372036854775808.
  change (2 ^ 64) with 18446744073709551616.
  Z.div_mod_to_equations. lia.
Qed.

Lemma int_of_float64_range (f : spec_float) :
  min_int64 <= int_of_float64 f <= max_int64.
Proof.
  assert (Hmin : min_int64 <= min_int64 <= max_int64)
    by (unfold min_int64, max_int64; simpl; lia).
  destruct f as [s| | |s m e]; simpl; try exact Hmin.
  - unfold min_int64, max_int64; simpl; lia.
  - destruct (_ && _) eqn:E; [|exact Hmin].
    apply andb_prop in E as [E1 E2]. lia.
Qed.

(** X1: called with the nil path, as the flattener is from outside,
    flattening a document made of two parts, one after the other, gives
    the metrics of the first part followed by those of the second.  (From
    the nil path every [append] at the top level allocates, so that no
    metric of one part shares its path with a metric of the other.) *)
Theorem flattenDocument_app (d1 d2 : Document) :
  flattenDocument [] (d1 ++ d2)
  = flattenDocument [] d1 ++ flattenDocument [] d2.
Proof.
  induction d1 as [|[k v] r IH]; [reflexivity|].
  change (((k, v) :: r) ++ d2) with ((k, v) :: (r ++ d2)).
  rewrite !flattenDocument_cons, IH. by rewrite app_assoc.
Qed.

Lemma flattenArray_loop_app (key : string) (path : list string)
  (vs1 vs2 : list Value) :
  forall idx,
    flattenArray_loop key path idx (vs1 ++ vs2)
    = flattenArray_loop key path idx vs1
      ++ flattenArray_loop key path (idx + length vs1) vs2.
Proof.
  induction vs1 as [|v r IH]; intros idx; simpl.
  - by rewrite Nat.add_0_r.
  - rewrite IH, <- app_assoc. do 3 f_equal. lia.
Qed.

(** X2: under the nil path, the elements of an array are numbered on from
    one part to the next: flattening an array made of two parts gives the
    metrics of the first part, then those of the second part keyed from
    the index where the first part ends. *)
Theorem flattenArray_app (key : string) (vs1 vs2 : list Value) :
  flattenArray key [] (Some (vs1 ++ vs2))
  = flattenArray key [] (Some vs1)
    ++ flattenArray_loop key [] (length vs1) vs2.
Proof. unfold flattenArray. simpl. apply flattenArray_loop_app. Qed.

Lemma metricForType_range (val : Value) :
  forall key path m,
    m ∈ metricForType key path val ->
    min_int64 <= StartingValue m <= max_int64 /\ Values m = [].
Proof.
  induction val as [d IH|vs IH|v Hv] using Value_nested_ind;
    intros key path m Hm.
  - rewrite metricForType_document in Hm.
    apply list_elem_of_fmap in Hm as (ne & -> & Hne). simpl.
    split; [|reflexivity].
    revert Hne. generalize (path ++ [key]) as p.
    induction IH as [|[k x] r Hx _ IHr]; intros p Hne.
    + by apply elem_of_nil in Hne.
    + rewrite flattenDocument_cons in Hne.
      apply elem_of_app in Hne as [Hne|Hne]; [|by eapply IHr].
      by eapply Hx.
  - rewrite metricForType_array_some in Hm.
    revert Hm. generalize 0%nat as idx.
    induction IH as [|x r Hx _ IHr]; intros idx Hm; simpl in Hm.
    + by apply elem_of_nil in Hm.
    + apply elem_of_app in Hm as [Hm|Hm]; [by eapply Hx | by eapply IHr].
  - destruct v as [ | | |[?|]| | | |[]| | | | | | | | | | | | | ];
      simpl in Hm; try (by apply elem_of_nil in Hm); try contradiction;
      repeat (apply elem_of_cons in Hm as [->|Hm]);
      try (by apply elem_of_nil in Hm); simpl; (split; [|reflexivity]);
      try apply swrap64_range; try apply int_of_float64_range;
      unfold min_int64, max_int64; simpl; lia.
Qed.

(** X3: whatever the document, every metric the flattener returns starts
    at a value within the signed 64-bit range and carries no values yet. *)
Theorem flattenDocument_starting_values_in_range (path : list string)
  (d : Document) (m : Metric) :
  m ∈ flattenDocument path d ->
  min_int64 <= StartingValue m <= max_int64 /\ Values m = [].
Proof.
  induction d as [|[k v] r IH]; intros Hm.
  - by apply elem_of_nil in Hm.
  - rewrite flattenDocument_cons in Hm.
    apply elem_of_app in Hm as [Hm|Hm]; [|by apply IH].
    by eapply metricForType_range.
Qed.

Lemma flattenDocument_starting_values_in_range_witness :
  Metric_lit [] "n" 5 ∈ flattenDocument [] [("n", VInt64 5)]
  /\ min_int64 <= 5 <= max_int64.
Proof.
  assert (Hin : Metric_lit [] "n" 5 ∈ flattenDocument [] [("n", VInt64 5)])
    by (vm_compute; constructor).
  split; [exact Hin|].
  exact (proj1 (flattenDocument_starting_values_in_range [] _ _ Hin)).
Defined.

End FlattenMore.

(** ** More on [unpackInt] and [sum] *)

Section UnpackIntMore.
Import GoInt Ftdc Shape More.

Lemma le_uint32_range (b0 b1 b2 b3 : Byte.byte) :
  0 <= le_uint32 b0 b1 b2 b3 < 2 ^ 32.
Proof.
  unfold le_uint32.
  pose proof (byte_range b0). pose proof (byte_range b1).
  pose proof (byte_range b2). pose proof (byte_range b3). lia.
Qed.

Lemma byte_to_N_inj (a b : Byte.byte) :
  Z.of_N (Byte.to_N a) = Z.of_N (Byte.to_N b) -> a = b.
Proof.
  intros H. apply N2Z.inj in H.
  pose proof (Byte.of_to_N a) as Ha. rewrite H, Byte.of_to_N in Ha.
  by injection Ha.
Qed.

Lemma unpackInt_take (bl : list Byte.byte) :
  unpackInt bl = unpackInt (take 4 bl).
Proof. by destruct bl as [|b0 [|b1 [|b2 [|b3 rest]]]]. Qed.

(** X4: [unpackInt] needs four bytes and reads no more: on fewer than four
    bytes it panics (index out of range), and bytes after the fourth do
    not change its result. *)
Theorem unpackInt_reads_four_bytes (bl : list Byte.byte) :
  (unpackInt bl = None <-> (length bl < 4)%nat)
  /\ unpackInt bl = unpackInt (take 4 bl).
Proof.
  split; [|apply unpackInt_take].
  destruct bl as [|b0 [|b1 [|b2 [|b3 rest]]]]; simpl;
    (split; [try (intros _; lia); try discriminate
            | try reflexivity; intros; lia]).
Qed.

(** X5: whatever [unpackInt] returns lies in the signed 32-bit range. *)
Theorem unpackInt_range (bl : list Byte.byte) (v : Z) :
  unpackInt bl = Some v -> - 2 ^ 31 <= v < 2 ^ 31.
Proof.
  rewrite unpackInt_take.
  destruct bl as [|b0 [|b1 [|b2 [|b3 rest]]]]; try discriminate.
  simpl take. rewrite unpackInt_four. cbv zeta.
  pose proof (le_uint32_range b0 b1 b2 b3) as Hu.
  intros Hv. injection Hv as <-.
  destruct (Z.ltb_spec (le_uint32 b0 b1 b2 b3) (2 ^ 31)); lia.
Qed.

Lemma unpackInt_range_witness :
  unpackInt [Byte.xff; Byte.xff; Byte.xff; Byte.xff] = Some (-1)
  /\ - 2 ^ 31 <= -1 < 2 ^ 31.
Proof.
  split; [reflexivity|].
  apply (unpackInt_range [Byte.xff; Byte.xff; Byte.xff; Byte.xff]).
  reflexivity.
Defined.

(** X6: a signed 32-bit value written as the four little-endian bytes of
    its two's complement comes back from [unpackInt] unchanged. *)
Theorem unpackInt_signed_round_trip (v : Z) :
  - 2 ^ 31 <= v < 2 ^ 31 ->
  unpackInt (le_bytes32 (v mod 2 ^ 32)) = Some v.
Proof.
  intros Hv.
  assert (Hu : 0 <= v mod 2 ^ 32 < 2 ^ 32) by (apply Z.mod_pos_bound; lia).
  pose proof (le_uint32_le_bytes32 _ Hu) as Hle.
  unfold le_bytes32 in *. rewrite unpackInt_four. cbv zeta. rewrite Hle.
  f_equal. change (2 ^ 31) with 2147483648 in *.
  change (2 ^ 32) with 4294967296 in *.
  destruct (Z.ltb_spec (v mod 4294967296) 2147483648);
    Z.div_mod_to_equations; lia.
Qed.

Lemma unpackInt_signed_round_trip_witness :
  - 2 ^ 31 <= -2 < 2 ^ 31
  /\ unpackInt (le_bytes32 ((-2) mod 2 ^ 32)) = Some (-2).
Proof.
  split; [lia|]. apply (unpackInt_signed_round_trip (-2)). lia.
Defined.

(** X7: [unpackInt] loses nothing of its four bytes: two four-byte inputs
    with the same result are the same bytes. *)
Theorem unpackInt_injective (a0 a1 a2 a3 b0 b1 b2 b3 : Byte.byte) :
  unpackInt [a0; a1; a2; a3] = unpackInt [b0; b1; b2; b3] ->
  [a0; a1; a2; a3] = [b0; b1; b2; b3].
Proof.
  rewrite !unpackInt_four. cbv zeta. intros H. injection H as H.
  pose proof (le_uint32_range a0 a1 a2 a3) as Ha.
  pose proof (le_uint32_range b0 b1 b2 b3) as Hb.
  assert (Hle : le_uint32 a0 a1 a2 a3 = le_uint32 b0 b1 b2 b3).
  { destruct (Z.ltb_spec (le_uint32 a0 a1 a2 a3) (2 ^ 31));
      destruct (Z.ltb_spec (le_uint32 b0 b1 b2 b3) (2 ^ 31)); lia. }
  unfold le_uint32 in Hle.
  pose proof (byte_range a0). pose proof (byte_range a1).
  pose proof (byte_range a2). pose proof (byte_range a3).
  pose proof (byte_range b0). pose proof (byte_range b1).
  pose proof (byte_range b2). pose proof (byte_range b3).
  repeat f_equal; apply byte_to_N_inj; lia.
Qed.

Lemma unpackInt_injective_witness :
  [Byte.x01; Byte.x02; Byte.x03; Byte.x04]
  = [Byte.x01; Byte.x02; Byte.x03; Byte.x04].
Proof.
  apply (unpackInt_injective Byte.x01 Byte.x02 Byte.x03 Byte.x04
           Byte.x01 Byte.x02 Byte.x03 Byte.x04).
  reflexivity.
Defined.

Lemma int_add_int_l (a b : Z) : int (int a + b) = int (a + b).
Proof.
  unfold int, swrap.
  change (2 ^ (64 - 1)) with 9223372036854775808.
  change (2 ^ 64) with 18446744073709551616.
  Z.div_mod_to_equations. lia.
Qed.

Lemma sum_from (l : list Z) :
  forall a, fold_left (fun s v => int (s + v)) l (int a) = int (a + total l).
Proof.
  induction l as [|v l IH]; intros a; simpl.
  - by rewrite Z.add_0_r.
  - rewrite int_add_int_l, IH. f_equal. lia.
Qed.

(** X8: [sum] is the sum of its arguments reduced to 64 bits; when the true
    total fits in an [int] the result is that total, even if a partial sum
    overflowed on the way. *)
Theorem sum_is_wrapped_total (l : list Z) :
  sum l = int (total l)
  /\ (min_int64 <= total l <= max_int64 -> sum l = total l).
Proof.
  assert (H : sum l = int (total l)).
  { unfold sum. change 0 with (int 0) at 1. by rewrite sum_from. }
  split; [exact H|]. intros Hfit. rewrite H. by apply int_small.
Qed.

Lemma sum_is_wrapped_total_witness :
  min_int64 <= total [max_int64; 1; -2] <= max_int64
  /\ sum [max_int64; 1; -2] = max_int64 - 1.
Proof.
  split; [unfold min_int64, max_int64; simpl; lia|].
  rewrite (proj2 (sum_is_wrapped_total [max_int64; 1; -2])).
  - reflexivity.
  - unfold min_int64, max_int64; simpl; lia.
Defined.

End UnpackIntMore.

(** ** More on the sample stream and its iterator *)

Section StreamMore.
Import GoInt Bson Ftdc Shape Iterator.

Lemma sample_doc_sound (ms : list Metric) (i : nat) :
  forall doc, sample_doc ms i = Some doc -> Forall2 (sample_of i) ms doc.
Proof.
  induction ms as [|m ms IH]; intros doc Hdoc; simpl in Hdoc.
  - injection Hdoc as <-. constructor.
  - destruct (Values m !! i) as [v|] eqn:Hv; [|discriminate Hdoc].
    simpl in Hdoc.
    destruct (sample_doc ms i) as [rest|]; [|discriminate Hdoc].
    simpl in Hdoc. injection Hdoc as <-.
    constructor; [|by apply IH]. by exists v.
Qed.

Lemma sample_doc_short (ms : list Metric) (i : nat) :
  Exists (fun m => (length (Values m) <= i)%nat) ms ->
  sample_doc ms i = None.
Proof.
  induction 1 as [m ms Hm|m ms _ IH]; simpl.
  - by rewrite (lookup_ge_None_2 _ _ Hm).
  - rewrite IH. by destruct (Values m !! i).
Qed.

Lemma length_send (doc : Document) (s : Stream) :
  sent (send doc s) = doc :: sent s.
Proof. by destruct s. Qed.

Lemma stream_from_sent (c : Chunk) (done : nat -> bool) (n : nat) :
  forall i,
    (length (sent (stream_from c done n i)) <= n)%nat
    /\ forall j doc,
         sent (stream_from c done n i) !! j = Some doc ->
         sample_doc (metrics c) (i + j) = Some doc.
Proof.
  induction n as [|n IH]; intros i; simpl.
  - split; [lia|]. intros j doc Hj. by destruct j.
  - destruct (sample_doc (metrics c) i) as [doc0|] eqn:Hdoc0; simpl.
    2:{ split; [lia|]. intros j doc Hj. by destruct j. }
    destruct (done i); simpl.
    { split; [lia|]. intros j doc Hj. by destruct j. }
    rewrite length_send. destruct (IH (S i)) as [Hlen Hnth].
    split; [simpl; lia|].
    intros [|j] doc Hj; simpl in Hj.
    + injection Hj as <-. by rewrite Nat.add_0_r.
    + apply Hnth in Hj. by replace (i + S j)%nat with (S i + j)%nat by lia.
Qed.

(** X9: whatever the chunk holds and whenever the context is done, what
    [streamDocuments] has sent is a run of sample documents without gap:
    the [i]-th document sent is the one for index [i], with one [Int64]
    element per metric in metric order, and no more than [nPoints + 1]
    documents are sent. *)
Theorem streamDocuments_sends_samples_in_order (c : Chunk)
  (done : nat -> bool) :
  Z.of_nat (length (sent (streamDocuments c done)))
  <= Z.max 0 (int (nPoints c + 1))
  /\ forall i doc,
       sent (streamDocuments c done) !! i = Some doc ->
       Forall2 (sample_of i) (metrics c) doc.
Proof.
  unfold streamDocuments.
  destruct (stream_from_sent c done (Z.to_nat (int (nPoints c + 1))) 0)
    as [Hlen Hnth].
  split; [lia|]. intros i doc Hi. apply sample_doc_sound. by apply Hnth.
Qed.

Lemma streamDocuments_sends_samples_in_order_witness :
  sent (streamDocuments (mkChunk [mkMetric [] "a" 1 [1; 2; 3]] 2)
          (fun i => bool_decide (i = 2%nat))) !! 1%nat
  = Some [("a"%string, VInt64 2)]
  /\ Forall2 (sample_of 1) [mkMetric [] "a" 1 [1; 2; 3]]
       [("a"%string, VInt64 2)].
Proof.
  split; [reflexivity|].
  apply (proj2 (streamDocuments_sends_samples_in_order
                  (mkChunk [mkMetric [] "a" 1 [1; 2; 3]] 2)
                  (fun i => bool_decide (i = 2%nat))) 1%nat).
  reflexivity.
Defined.

Lemma stream_from_stops (c : Chunk) (done : nat -> bool) (n : nat) :
  forall i k,
    (i <= k < i + n)%nat ->
    (forall j, (i <= j < k)%nat ->
               done j = false /\ is_Some (sample_doc (metrics c) j)) ->
    (sample_doc (metrics c) k = None
     \/ (is_Some (sample_doc (metrics c) k) /\ done k = true)) ->
    length (sent (stream_from c done n i)) = (k - i)%nat
    /\ (stream_from c done n i = Panicked (sent (stream_from c done n i))
        <-> sample_doc (metrics c) k = None).
Proof.
  induction n as [|n IH]; intros i k Hk Hbefore Hstop; [lia|]. simpl.
  destruct (decide (i = k)) as [->|Hne].
  - replace (k - k)%nat with 0%nat by lia.
    destruct Hstop as [Hnone|[[doc Hdoc] Hdone]].
    + rewrite Hnone. simpl. by split.
    + rewrite Hdoc, Hdone. simpl. split; [done|]. split; discriminate.
  - destruct (Hbefore i ltac:(lia)) as [Hdone [doc Hdoc]].
    rewrite Hdoc, Hdone.
    destruct (IH (S i) k ltac:(lia)) as [Hlen Hpanic].
    { intros j Hj. apply Hbefore. lia. }
    { exact Hstop. }
    rewrite length_send. simpl. split; [lia|].
    rewrite <- Hpanic.
    destruct (stream_from c done n (S i)); simpl; split; intros H;
      congruence.
Qed.

Lemma long_enough (c : Chunk) (k : nat) :
  Forall (fun m => (k <= length (Values m))%nat) (metrics c) ->
  forall j, (j < k)%nat -> is_Some (sample_doc (metrics c) j).
Proof.
  intros Hvals j Hj.
  destruct (sample_doc_some (metrics c) j) as (doc & Hdoc & _); [|by exists doc].
  eapply Forall_impl; [exact Hvals|]. simpl. intros m Hm. lia.
Qed.

(** X10: when the context is done first at turn [k] of the loop, with [k]
    no more than [nPoints] and every metric holding more than [k] values,
    [streamDocuments] has sent exactly the first [k] documents and closes
    the channel; the document built in turn [k] is not sent. *)
Theorem streamDocuments_cancelled (c : Chunk) (done : nat -> bool) (k : nat) :
  0 <= nPoints c < max_int64 ->
  Z.of_nat k <= nPoints c ->
  done k = true ->
  (forall j, (j < k)%nat -> done j = false) ->
  Forall (fun m => (k < length (Values m))%nat) (metrics c) ->
  exists docs,
    streamDocuments c done = Closed docs /\ length docs = k.
Proof.
  intros Hn Hk Hdone Hbefore Hvals. unfold streamDocuments.
  rewrite int_small by (unfold min_int64, max_int64 in *; lia).
  destruct (stream_from_stops c done (Z.to_nat (nPoints c + 1)) 0 k)
    as [Hlen Hpanic]; [lia| | |].
  - intros j Hj. split; [apply Hbefore; lia|].
    apply (long_enough c (S k)); [|lia].
    eapply Forall_impl; [exact Hvals|]. simpl. intros m Hm. lia.
  - right. split; [|exact Hdone].
    apply (long_enough c (S k)); [|lia].
    eapply Forall_impl; [exact Hvals|]. simpl. intros m Hm. lia.
  - destruct (stream_from c done _ 0) as [docs|docs] eqn:Hs; simpl in *.
    + exists docs. split; [reflexivity | lia].
    + destruct (long_enough c (S k)) with (j := k) as [doc Hdoc]; [|lia|].
      { eapply Forall_impl; [exact Hvals|]. simpl. intros m Hm. lia. }
      rewrite (proj1 Hpanic eq_refl) in Hdoc. discriminate Hdoc.
Qed.

Lemma streamDocuments_cancelled_witness :
  exists docs,
    streamDocuments
      (mkChunk [mkMetric [] "a" 1 [1; 2; 3]] 2) (fun i => bool_decide (i = 1%nat))
    = Closed docs
    /\ length docs = 1%nat.
Proof.
  apply (streamDocuments_cancelled
           (mkChunk [mkMetric [] "a" 1 [1; 2; 3]] 2)
           (fun i => bool_decide (i = 1%nat)) 1).
  - unfold max_int64; simpl; lia.
  - simpl; lia.
  - reflexivity.
  - intros j Hj. assert (j = 0%nat) as -> by lia. reflexivity.
  - repeat constructor.
Defined.

(** X11: when some metric holds only [k] values, [k] no more than
    [nPoints], and the others at least as many, a consumer that takes every
    document gets the first [k] documents and then the producer dies on an
    index out of range: the channel is not closed in the normal way. *)
Theorem streamDocuments_short_metric_panics (c : Chunk) (done : nat -> bool)
  (k : nat) :
  0 <= nPoints c < max_int64 ->
  Z.of_nat k <= nPoints c ->
  (forall j, done j = false) ->
  Forall (fun m => (k <= length (Values m))%nat) (metrics c) ->
  Exists (fun m => length (Values m) = k) (metrics c) ->
  exists docs,
    streamDocuments c done = Panicked docs /\ length docs = k.
Proof.
  intros Hn Hk Hdone Hvals Hshort. unfold streamDocuments.
  rewrite int_small by (unfold min_int64, max_int64 in *; lia).
  assert (Hnone : sample_doc (metrics c) k = None).
  { apply sample_doc_short. eapply Exists_impl; [exact Hshort|].
    simpl. intros m Hm. lia. }
  destruct (stream_from_stops c done (Z.to_nat (nPoints c + 1)) 0 k)
    as [Hlen Hpanic]; [lia| |by left|].
  - intros j Hj. split; [apply Hdone|]. apply (long_enough c k); [done|lia].
  - exists (sent (stream_from c done (Z.to_nat (nPoints c + 1)) 0)).
    split; [by apply Hpanic | lia].
Qed.

Lemma streamDocuments_short_metric_panics_witness :
  exists docs,
    streamDocuments
      (mkChunk [mkMetric [] "a" 1 [1; 2; 3]; mkMetric [] "b" 1 [4; 5]] 2)
      (fun _ => false)
    = Panicked docs
    /\ length docs = 2%nat.
Proof.
  apply (streamDocuments_short_metric_panics
           (mkChunk [mkMetric [] "a" 1 [1; 2; 3]; mkMetric [] "b" 1 [4; 5]] 2)
           (fun _ => false) 2).
  - unfold max_int64; simpl; lia.
  - simpl; lia.
  - reflexivity.
  - repeat constructor.
  - apply Exists_cons_tl. apply Exists_cons_hd. reflexivity.
Defined.

(** X12: a chunk whose [nPoints] is negative, or is the largest [int] (so
    that [nPoints + 1] overflows), gives no document at all: the channel is
    closed at once, whatever the metrics hold. *)
Theorem streamDocuments_no_points (c : Chunk) (done : nat -> bool) :
  min_int64 <= nPoints c < 0 \/ nPoints c = max_int64 ->
  streamDocuments c done = Closed [].
Proof.
  intros Hn. unfold streamDocuments.
  replace (Z.to_nat (int (nPoints c + 1))) with 0%nat; [reflexivity|].
  destruct Hn as [Hn| ->].
  - rewrite int_small by (unfold min_int64, max_int64 in *; lia). lia.
  - reflexivity.
Qed.

Lemma streamDocuments_no_points_witness :
  streamDocuments (mkChunk [mkMetric [] "a" 1 [1; 2; 3]] (-1)) (fun _ => false)
  = Closed [].
Proof.
  apply streamDocuments_no_points. left.
  unfold min_int64; simpl; lia.
Defined.

End StreamMore.

Section IteratorMore.
Import Bson Iterator.

Lemma drain_all (done : nat -> bool) (docs : list Document) :
  (forall j, done j = false) ->
  forall fuel k cur,
    (length docs < fuel)%nat ->
    drain done fuel k (mkSampleIterator docs cur)
    = (map Some docs,
       mkSampleIterator []
         (match last docs with Some d => Some d | None => cur end)).
Proof.
  intros Hdone. induction docs as [|doc docs IH]; intros fuel k cur Hfuel.
  - destruct fuel as [|fuel]; [simpl in Hfuel; lia|].
    simpl. unfold Next. by rewrite Hdone.
  - destruct fuel as [|fuel]; [simpl in Hfuel; lia|].
    simpl. unfold Next. rewrite Hdone. simpl.
    rewrite IH by (simpl in Hfuel; lia). simpl.
    do 2 f_equal. destruct docs as [|d' docs']; [reflexivity|].
    change (last (doc :: d' :: docs')) with (last (d' :: docs')).
    destruct (last (d' :: docs')) eqn:E; [reflexivity|].
    by apply last_None in E.
Qed.

(** X13: with a context that is never done, the loop
    [for iter.Next(ctx) { ... iter.Document() ... }] sees every document of
    the stream exactly once and in order; it ends when the channel is
    closed, and then [Next] keeps returning [false] while [Document] keeps
    returning the last document seen (or what it returned before the loop,
    when the stream was empty). *)
Theorem iterator_yields_stream_in_order (done : nat -> bool)
  (iter : SampleIterator) (fuel k : nat) :
  (forall j, done j = false) ->
  (length (stream iter) < fuel)%nat ->
  let '(seen, final) := drain done fuel k iter in
  seen = map Some (stream iter)
  /\ Document_of final
     = match last (stream iter) with
       | Some d => Some d
       | None => Document_of iter
       end
  /\ Next false final = (false, final).
Proof.
  intros Hdone Hfuel. destruct iter as [docs cur]. simpl in Hfuel.
  rewrite (drain_all done docs Hdone fuel k cur Hfuel). simpl.
  split; [reflexivity|]. split; reflexivity.
Qed.

Lemma iterator_yields_stream_in_order_witness :
  let '(seen, final) :=
    drain (fun _ => false) 3 0
      (mkSampleIterator [[("a"%string, VInt64 1)]; [("a"%string, VInt64 2)]]
         None) in
  seen = [Some [("a"%string, VInt64 1)]; Some [("a"%string, VInt64 2)]]
  /\ Document_of final = Some [("a"%string, VInt64 2)]
  /\ Next false final = (false, final).
Proof.
  apply (iterator_yields_stream_in_order (fun _ => false)
           (mkSampleIterator
              [[("a"%string, VInt64 1)]; [("a"%string, VInt64 2)]] None) 3 0).
  - reflexivity.
  - simpl; lia.
Defined.

End IteratorMore.

(** ** More on [decode] *)

Section DecodeMore.
Import GoInt GoTime Cmd Runs More.
Local Open Scope string_scope.
Local Open Scope list_scope.

Lemma kept_nil (w : World) (start end_ : Time) : kept w start end_ [] = [].
Proof. reflexivity. Qed.

Lemma decode_files_error (w : World) (start end_ : Time) (silent : bool)
  (files : list string) :
  forall st,
    (decode_files w start end_ silent files st).1
    = ErrOpen <$> first_unopenable w files.
Proof.
  induction files as [|file rest IH]; intros st; simpl; [reflexivity|].
  destruct (os_Open w file) as [f|]; [apply IH | reflexivity].
Qed.

(** X14: what [decode] returns, by the order of its checks: the error for
    an empty file list; else the error of the time bounds; else the error
    of the first file that cannot be opened, whatever was read from the
    files before it; else the error for no chunks when no chunk passes the
    clip test; else the chunks kept (or their merge). *)
Theorem decode_result_by_cases (w : World) (files : list string)
  (tStart tEnd : string) (silent shouldMerge : bool) :
  returned (decode w files tStart tEnd silent shouldMerge)
  = match files with
    | [] => inl ErrMustProvideFile
    | _ :: _ =>
        match parseTimes w tStart tEnd with
        | inl e => inl e
        | inr (start, end_) =>
            match first_unopenable w files with
            | Some file => inl (ErrOpen file)
            | None =>
                match kept w start end_ files with
                | [] => inl ErrNoChunks
                | _ :: _ =>
                    inr (if shouldMerge
                         then Merged (merge (kept w start end_ files))
                         else ChunkList (kept w start end_ files))
                end
            end
        end
    end.
Proof.
  unfold decode. destruct files as [|file0 rest0] eqn:Efiles; [reflexivity|].
  rewrite <- Efiles. case_bool_decide as Hlen; [by subst|].
  destruct (parseTimes w tStart tEnd) as [e|[start end_]]; [reflexivity|].
  pose proof (decode_files_error w start end_ silent files
                (mkDecodeState [] 0 [] [])) as Herr.
  destruct (decode_files _ _ _ _ _ _) as [err st] eqn:Hrun. simpl in Herr.
  destruct (first_unopenable w files) as [file|]; simpl in Herr; subst err;
    [reflexivity|].
  apply decode_files_kept in Hrun. simpl in Hrun. rewrite <- Hrun.
  destruct (cs st) as [|c cs']; simpl; [reflexivity|].
  by destruct shouldMerge.
Qed.

Lemma fold_decode_chunk_mute (w : World) (start end_ : Time) (silent : bool)
  (file : string) (chunks : list Chunk) :
  forall st,
    fold_left (decode_chunk w start end_ true file) chunks (mute st)
    = mute (fold_left (decode_chunk w start end_ silent file) chunks st).
Proof.
  induction chunks as [|c chunks IH]; intros st; simpl; [reflexivity|].
  rewrite <- IH. f_equal. unfold decode_chunk.
  by destruct (Clip w c start end_).
Qed.

Lemma decode_files_mute (w : World) (start end_ : Time) (silent : bool)
  (files : list string) :
  forall st,
    decode_files w start end_ true files (mute st)
    = ((decode_files w start end_ silent files st).1,
       mute (decode_files w start end_ silent files st).2).
Proof.
  induction files as [|file rest IH]; intros st; simpl; [reflexivity|].
  destruct (os_Open w file) as [f|]; simpl; [|reflexivity].
  rewrite <- IH. f_equal. by rewrite <- fold_decode_chunk_mute.
Qed.

(** X15: the [silent] flag changes nothing but the lines of the main
    goroutine: a silent [decode] writes none of them, on success or
    failure, and returns the same value and leaves the same messages of the
    parsing goroutines as the same call without the flag. *)
Theorem decode_silent_only_drops_lines (w : World) (files : list string)
  (tStart tEnd : string) (silent shouldMerge : bool) :
  decode w files tStart tEnd true shouldMerge
  = mkDecodeRun
      (returned (decode w files tStart tEnd silent shouldMerge)) []
      (stderr_parsers (decode w files tStart tEnd silent shouldMerge)).
Proof.
  unfold decode. case_bool_decide; [reflexivity|].
  destruct (parseTimes w tStart tEnd) as [e|[start end_]]; [reflexivity|].
  change (mkDecodeState [] 0 [] []) with (mute (mkDecodeState [] 0 [] []))
    at 1.
  rewrite (decode_files_mute w start end_ silent).
  destruct (decode_files w start end_ silent files _) as [[e|] st];
    simpl; [reflexivity|].
  case_bool_decide; [reflexivity|].
  by destruct shouldMerge.
Qed.

Lemma fold_decode_chunk_log (w : World) (start end_ : Time) (file : string)
  (chunks : list Chunk) :
  forall st,
    let st' := fold_left (decode_chunk w start end_ false file) chunks st in
    log st'
    = log st
      ++ map (LogChunk file)
           (List.filter (fun c => Clip w c start end_) chunks)
    /\ int (count st')
       = int (count st
              + total (map NDeltas
                         (List.filter (fun c => Clip w c start end_) chunks))).
Proof.
  induction chunks as [|c chunks IH]; intros st; simpl.
  - by rewrite app_nil_r, Z.add_0_r.
  - destruct (IH (decode_chunk w start end_ false file st c)) as [Hlog Hcount].
    rewrite Hlog, Hcount. unfold decode_chunk.
    destruct (Clip w c start end_); simpl; [|done].
    rewrite <- app_assoc. split; [reflexivity|].
    rewrite int_add_int_l. f_equal. lia.
Qed.

Lemma int_idem (z : Z) : int (int z) = int z.
Proof.
  pose proof (int_add_int_l z 0) as H. by rewrite !Z.add_0_r in H.
Qed.

Lemma fold_decode_chunk_count_wrapped (w : World) (start end_ : Time)
  (silent : bool) (file : string) (chunks : list Chunk) :
  forall st,
    count st = int (count st) ->
    let st' := fold_left (decode_chunk w start end_ silent file) chunks st in
    count st' = int (count st').
Proof.
  induction chunks as [|c chunks IH]; intros st Hst; simpl; [exact Hst|].
  apply IH. unfold decode_chunk.
  destruct (Clip w c start end_); simpl; [|exact Hst].
  by rewrite int_idem.
Qed.

Lemma total_app (l1 l2 : list Z) : total (l1 ++ l2) = total l1 + total l2.
Proof.
  induction l1 as [|x l1 IH]; simpl; [reflexivity|]. rewrite IH. lia.
Qed.

Lemma decode_files_log (w : World) (start end_ : Time)
  (files : list string) :
  forall st st',
    decode_files w start end_ false files st = (None, st') ->
    count st = int (count st) ->
    log st' = log st ++ flat_map (chunk_lines w start end_) files
    /\ count st' = int (count st')
    /\ int (count st')
       = int (count st + total (map NDeltas (kept w start end_ files))).
Proof.
  induction files as [|file rest IH]; intros st st' Hrun Hst; simpl in Hrun.
  - injection Hrun as <-. unfold kept. simpl.
    by rewrite app_nil_r, Z.add_0_r.
  - destruct (os_Open w file) as [f|] eqn:Hf; [|discriminate Hrun].
    pose proof (fold_decode_chunk_log w start end_ file (chunks_read f)
                  (mkDecodeState (cs st) (count st) (log st)
                     (report_parse_error f (parse_log st)))) as [Hlog Hcount].
    pose proof (fold_decode_chunk_count_wrapped w start end_ false file
                  (chunks_read f)
                  (mkDecodeState (cs st) (count st) (log st)
                     (report_parse_error f (parse_log st))) Hst) as Hwrapped.
    simpl in Hlog, Hcount, Hwrapped.
    apply IH in Hrun as (Hlog' & Hw' & Hcount'); [|exact Hwrapped].
    rewrite Hlog', Hlog. simpl. unfold chunk_lines at 2. rewrite Hf.
    rewrite <- app_assoc. split; [reflexivity|]. split; [exact Hw'|].
    rewrite Hcount'. rewrite (kept_cons_open _ _ _ _ f) by done.
    rewrite map_app, total_app.
    rewrite <- int_add_int_l, Hcount, int_add_int_l. f_equal. lia.
Qed.

(** X16: a [decode] that is not silent and returns a result has written,
    from its main goroutine, one line per chunk kept, file after file in
    stream order, and then the line with the number of samples found: the
    sum of the [NDeltas] of the chunks kept, as an [int]. *)
Theorem decode_lines_when_not_silent (w : World) (files : list string)
  (tStart tEnd : string) (shouldMerge : bool) (result : Output) :
  returned (decode w files tStart tEnd false shouldMerge) = inr result ->
  exists start end_,
    parseTimes w tStart tEnd = inr (start, end_)
    /\ stderr (decode w files tStart tEnd false shouldMerge)
       = flat_map (chunk_lines w start end_) files
         ++ [LogFound
               (int (total (map NDeltas (kept w start end_ files))))].
Proof.
  unfold decode. case_bool_decide; [discriminate|].
  destruct (parseTimes w tStart tEnd) as [e|[start end_]]; [discriminate|].
  destruct (decode_files _ _ _ _ _ _) as [[e|] st] eqn:Hrun; [discriminate|].
  apply decode_files_log in Hrun as (Hlog & Hw & Hcount); [|reflexivity].
  simpl in Hlog, Hcount. case_bool_decide; [discriminate|].
  intros _. exists start, end_. split; [reflexivity|].
  rewrite Hw, Hcount, Hlog. by destruct shouldMerge.
Qed.

Lemma decode_lines_when_not_silent_witness :
  exists start end_,
    parseTimes small_world "" "" = inr (start, end_)
    /\ stderr (decode small_world ["metrics.0"] "" "" false false)
       = flat_map (chunk_lines small_world start end_) ["metrics.0"]
         ++ [LogFound
               (int (total (map NDeltas
                              (kept small_world start end_ ["metrics.0"]))))].
Proof.
  apply (decode_lines_when_not_silent small_world ["metrics.0"] "" "" false
           (ChunkList [chunk_a; chunk_b])).
  reflexivity.
Defined.

End DecodeMore.

(** ** More on merge mode *)

Section MergeMore.
Import GoInt GoTime Cmd Runs More.
Local Open Scope string_scope.
Local Open Scope list_scope.

Lemma merge_lookup_occurrences (chunks : list Chunk) (k : string) :
  merge chunks !! k
  = match occurrences k chunks with
    | [] => None
    | m :: ms => Some (mkMetric k (Value m) (flat_map Deltas (m :: ms)))
    end.
Proof.
  unfold merge, occurrences. rewrite merge_flat, fold_merge_lookup.
  by rewrite lookup_empty.
Qed.

Lemma occurrences_app (k : string) (cs1 cs2 : list Chunk) :
  occurrences k (cs1 ++ cs2) = occurrences k cs1 ++ occurrences k cs2.
Proof. unfold occurrences. by rewrite flat_map_app, filter_app. Qed.

Lemma occurrences_nil_iff (k : string) (chunks : list Chunk) :
  occurrences k chunks = [] <-> k ∉ map Key (flat_map Metrics chunks).
Proof.
  unfold occurrences.
  induction (flat_map Metrics chunks) as [|m ms IH]; simpl.
  - split; [intros _ H; by apply elem_of_nil in H | done].
  - destruct (decide (Key m = k)) as [Hk|Hk].
    + rewrite filter_cons_True by done. split; [discriminate|].
      intros H. exfalso. apply H. rewrite Hk. apply list_elem_of_here.
    + rewrite filter_cons_False by done. rewrite IH.
      rewrite not_elem_of_cons.
      split; [intros ?; split; [congruence | done] | by intros [_ ?]].
Qed.

(** X17: the merged map has an entry for exactly the keys that occur among
    the metrics of the chunks, and the entry for a key carries that key. *)
Theorem merge_keys (chunks : list Chunk) (k : string) :
  (is_Some (merge chunks !! k) <-> k ∈ map Key (flat_map Metrics chunks))
  /\ (forall m, merge chunks !! k = Some m -> Key m = k).
Proof.
  rewrite merge_lookup_occurrences.
  pose proof (occurrences_nil_iff k chunks) as Hnil.
  destruct (occurrences k chunks) as [|m ms].
  - split.
    + split; [intros [? ?]; discriminate|].
      intros Hin. by apply Hnil in Hin.
    + discriminate.
  - split.
    + split; [|by eexists]. intros _.
      destruct (decide (k ∈ map Key (flat_map Metrics chunks))); [done|].
      by apply Hnil in n.
    + intros m' Hm'. by injection Hm' as <-.
Qed.

Lemma merge_keys_witness :
  merge [chunk_a; chunk_b] !! "x" = Some (mkMetric "x" 7 [1; 0; 2])
  /\ Key (mkMetric "x" 7 [1; 0; 2]) = "x".
Proof.
  split; [reflexivity|].
  apply (proj2 (merge_keys [chunk_a; chunk_b] "x")). reflexivity.
Defined.

(** X18: merging a list of chunks followed by another is merging each and
    combining the two maps key by key: a key of one side only keeps its
    entry, and a key of both keeps the starting value of the first side
    with the deltas of the first followed by those of the second. *)
Theorem merge_app (cs1 cs2 : list Chunk) :
  merge (cs1 ++ cs2) = union_with merge_entries (merge cs1) (merge cs2).
Proof.
  apply map_eq. intros k. rewrite lookup_union_with.
  rewrite !merge_lookup_occurrences, occurrences_app.
  destruct (occurrences k cs1) as [|m1 ms1];
    destruct (occurrences k cs2) as [|m2 ms2]; simpl; try reflexivity.
  - by rewrite !app_nil_r.
  - unfold merge_entries. simpl. do 2 f_equal.
    by rewrite flat_map_app, <- !app_assoc.
Qed.

End MergeMore.

(** ** More on [export] *)

Section ExportMore.
Import GoInt GoTime Cmd Runs More.
Local Open Scope string_scope.
Local Open Scope list_scope.

Lemma export_docs_writes (ds : list Doc) :
  forall i st, writes ds st (export_docs ds i st).
Proof.
  unfold writes.
  induction ds as [|d ds IH]; intros i st; simpl.
  - rewrite take_nil, app_nil_r. split_and!; [done|lia| |by left].
    split; [lia|done].
  - unfold Encode. destruct (room (out st)) as [|r] eqn:Hroom; simpl.
    + rewrite app_nil_r. split_and!; [done|done| |right; by eauto].
      split; [discriminate|lia].
    + destruct (IH (S i)
                  (mkExportState (chunkCount st) (int (ecount st + 1))
                     (mkWriter (written (out st) ++ [d]) r)
                     (elog st) (eparse_log st)))
        as (Hw & Hr & Hok & Hkind).
      simpl in Hw, Hr, Hok. rewrite Hw, Hr, <- app_assoc.
      split_and!; [done|done| |exact Hkind].
      rewrite Hok. split; lia.
Qed.

Lemma writes_app (ds1 ds2 : list Doc) (st st1 : ExportState)
  (e1 : option Error) (r : option Error * ExportState) :
  writes ds1 st (e1, st1) ->
  (e1 = None -> writes ds2 st1 r) ->
  writes (ds1 ++ ds2) st (match e1 with Some e => (Some e, st1) | None => r end).
Proof.
  unfold writes. simpl. intros (Hw & Hr & Hok & Hkind) Hrest.
  rewrite length_app. destruct e1 as [e|]; simpl.
  - assert (Hlt : ~ (length ds1 <= room (out st))%nat)
      by (intros Hle; apply Hok in Hle; discriminate).
    rewrite take_app_le by lia.
    split_and!; [done|lia| |exact Hkind].
    split; [discriminate|lia].
  - destruct (Hrest eq_refl) as (Hw2 & Hr2 & Hok2 & Hkind2).
    assert (Hle : (length ds1 <= room (out st))%nat) by (by apply Hok).
    rewrite take_ge in Hw by done.
    rewrite Hw2, Hr2, Hw, Hr, <- app_assoc, take_app_ge by done.
    split_and!; [done|lia| |exact Hkind2].
    rewrite Hok2, Hr. split; lia.
Qed.

Lemma export_chunks_writes (w : World) (start end_ : Time) (silent : bool)
  (includeKeys : gmap string bool) (file : string) (chunks : list Chunk) :
  forall st,
    writes
      (flat_map (fun c => Expand w c includeKeys)
         (List.filter (fun c => Clip w c start end_) chunks))
      st (export_chunks w start end_ silent includeKeys file chunks st).
Proof.
  induction chunks as [|c chunks IH]; intros st; simpl.
  - unfold writes. simpl. rewrite take_nil, app_nil_r.
    split_and!; [done|lia| |by left]. split; [lia|done].
  - destruct (Clip w c start end_); simpl; [|apply IH].
    set (st1 := mkExportState _ _ _ _ _).
    pose proof (export_docs_writes (Expand w c includeKeys) 0 st1) as Hdocs.
    destruct (export_docs (Expand w c includeKeys) 0 st1) as [e1 st2].
    change (written (out st)) with (written (out st1)).
    pose proof (writes_app (Expand w c includeKeys)
                  (flat_map (fun c => Expand w c includeKeys)
                     (List.filter (fun c => Clip w c start end_) chunks))
                  st1 st2 e1
                  (export_chunks w start end_ silent includeKeys file chunks
                     st2) Hdocs (fun _ => IH st2)) as Happ.
    by destruct e1.
Qed.

Lemma samples_kept_cons_open (w : World) (start end_ : Time)
  (includeKeys : gmap string bool) (file : string) (f : File)
  (rest : list string) :
  os_Open w file = Some f ->
  samples_kept w start end_ includeKeys (file :: rest)
  = flat_map (fun c => Expand w c includeKeys)
      (List.filter (fun c => Clip w c start end_) (chunks_read f))
    ++ samples_kept w start end_ includeKeys rest.
Proof.
  intros Hf. unfold samples_kept.
  by rewrite (kept_cons_open _ _ _ _ f), flat_map_app.
Qed.

Lemma export_files_writes (w : World) (start end_ : Time) (silent : bool)
  (includeKeys : gmap string bool) (files : list string) :
  all_open w files ->
  forall st,
    writes (samples_kept w start end_ includeKeys files) st
      (export_files w start end_ silent includeKeys files st).
Proof.
  induction 1 as [|file rest [f Hf] _ IH]; intros st; simpl.
  - unfold writes, samples_kept, kept. simpl. rewrite take_nil, app_nil_r.
    split_and!; [done|lia| |by left]. split; [lia|done].
  - rewrite Hf, (samples_kept_cons_open _ _ _ _ _ f) by done.
    pose proof (export_chunks_writes w start end_ silent includeKeys file
                  (chunks_read f) st) as Hchunks.
    destruct (export_chunks w start end_ silent includeKeys file
                (chunks_read f) st) as [e1 st2].
    set (st3 := mkExportState (chunkCount st2) (ecount st2) (out st2)
                  (elog st2) (report_parse_error f (eparse_log st2))).
    pose proof (writes_app _ (samples_kept w start end_ includeKeys rest)
                  st st2 e1
                  (export_files w start end_ silent includeKeys rest st3)
                  Hchunks (fun _ => IH st3)) as Happ.
    by destruct e1.
Qed.

(** X19: with a file list that is not empty, time bounds that parse and
    files that all open, [export] writes the samples of the chunks kept, in
    order, for as long as the writer takes them: after what the writer
    held come the first [room] of them.  It returns [nil] exactly when they
    all fit, and otherwise the error of the write that failed. *)
Theorem export_writes_what_fits (w : World) (files : list string)
  (tStart tEnd : string) (silent : bool) (wr : Writer)
  (includeKeys : gmap string bool) (start end_ : Time) :
  files <> [] ->
  parseTimes w tStart tEnd = inr (start, end_) ->
  all_open w files ->
  let run := export w files tStart tEnd silent wr includeKeys in
  let samples := samples_kept w start end_ includeKeys files in
  written (out run.2) = written wr ++ take (room wr) samples
  /\ (run.1 = None <-> (length samples <= room wr)%nat)
  /\ (run.1 = None \/ exists c i, run.1 = Some (ErrWrite c i)).
Proof.
  intros Hfiles Htimes Hopen. cbv zeta. unfold export.
  case_bool_decide as Hlen; [by destruct files|].
  rewrite Htimes.
  pose proof (export_files_writes w start end_ silent includeKeys files Hopen
                (mkExportState 0 0 wr [] [])) as (Hw & _ & Hok & Hkind).
  destruct (export_files _ _ _ _ _ _ _) as [[e|] st]; simpl in *;
    by split_and!.
Qed.

Lemma export_writes_what_fits_witness :
  let run := export small_world ["metrics.0"] "" "" true (mkWriter [] 1) ∅ in
  exists start end_,
    parseTimes small_world "" "" = inr (start, end_)
    /\ written (out run.2)
       = [] ++ take 1 (samples_kept small_world start end_ ∅ ["metrics.0"])
    /\ run.1 = Some (ErrWrite 1 1).
Proof.
  cbv zeta.
  exists (Unix min_int64 0), (Unix max_int64 0).
  split; [reflexivity|]. split; [|reflexivity].
  apply (export_writes_what_fits small_world ["metrics.0"] "" "" true
           (mkWriter [] 1) ∅ (Unix min_int64 0) (Unix max_int64 0)).
  - discriminate.
  - reflexivity.
  - repeat constructor. by eexists.
Defined.

Lemma all_open_first_unopenable (w : World) (files : list string) :
  all_open w files -> first_unopenable w files = None.
Proof.
  induction 1 as [|file rest [f Hf] _ IH]; simpl; [reflexivity|].
  by rewrite Hf.
Qed.

(** X20: when every file opens but no chunk passes the clip test, [export]
    is not in error: it returns [nil] and writes nothing, where [decode] on
    the same input returns the error for no chunks found. *)
Theorem export_no_chunk_is_no_error (w : World) (files : list string)
  (tStart tEnd : string) (silent shouldMerge : bool) (wr : Writer)
  (includeKeys : gmap string bool) (start end_ : Time) :
  files <> [] ->
  parseTimes w tStart tEnd = inr (start, end_) ->
  all_open w files ->
  kept w start end_ files = [] ->
  (export w files tStart tEnd silent wr includeKeys).1 = None
  /\ written (out (export w files tStart tEnd silent wr includeKeys).2)
     = written wr
  /\ returned (decode w files tStart tEnd silent shouldMerge)
     = inl ErrNoChunks.
Proof.
  intros Hfiles Htimes Hopen Hkept.
  assert (Hlen : length files <> 0%nat) by (by destruct files).
  split_and!.
  - unfold export. rewrite bool_decide_eq_false_2, Htimes by done.
    pose proof (export_files_writes w start end_ silent includeKeys files
                  Hopen (mkExportState 0 0 wr [] [])) as (_ & _ & Hok & _).
    unfold samples_kept in Hok. rewrite Hkept in Hok. simpl in Hok.
    destruct (export_files _ _ _ _ _ _ _) as [[e|] st]; [|reflexivity].
    simpl in Hok. destruct Hok as [_ Hok]. by specialize (Hok ltac:(lia)).
  - unfold export. rewrite bool_decide_eq_false_2, Htimes by done.
    pose proof (export_files_writes w start end_ silent includeKeys files
                  Hopen (mkExportState 0 0 wr [] [])) as (Hw & _ & _ & _).
    unfold samples_kept in Hw. rewrite Hkept in Hw. simpl in Hw.
    rewrite take_nil, app_nil_r in Hw.
    by destruct (export_files _ _ _ _ _ _ _) as [[e|] st].
  - unfold decode. rewrite bool_decide_eq_false_2, Htimes by done.
    pose proof (decode_files_error w start end_ silent files
                  (mkDecodeState [] 0 [] [])) as Herr.
    rewrite (all_open_first_unopenable _ _ Hopen) in Herr.
    destruct (decode_files _ _ _ _ _ _) as [err st] eqn:Hrun.
    simpl in Herr. subst err.
    apply decode_files_kept in Hrun. rewrite Hkept in Hrun. simpl in Hrun.
    by rewrite Hrun.
Qed.

Lemma export_no_chunk_is_no_error_witness :
  (export small_world ["metrics.0"] "t2" "t2" true (mkWriter [] 0) ∅).1 = None
  /\ returned (decode small_world ["metrics.0"] "t2" "t2" true false)
     = inl ErrNoChunks.
Proof.
  destruct (export_no_chunk_is_no_error small_world ["metrics.0"] "t2" "t2"
              true false (mkWriter [] 0) ∅ (mkTime 2 0) (mkTime 2 0))
    as (Hexport & _ & Hdecode).
  - discriminate.
  - reflexivity.
  - repeat constructor. by eexists.
  - reflexivity.
  - split; [exact Hexport | exact Hdecode].
Defined.

Lemma export_docs_forget (ds : list Doc) :
  forall i st,
    export_docs ds i (forget_eparse_log st)
    = ((export_docs ds i st).1, forget_eparse_log (export_docs ds i st).2).
Proof.
  induction ds as [|d ds IH]; intros i st; simpl; [reflexivity|].
  destruct (Encode (out st) d) as [out'|]; [|reflexivity].
  by rewrite <- IH.
Qed.

Lemma export_chunks_forget (w : World) (start end_ : Time) (silent : bool)
  (includeKeys : gmap string bool) (file : string) (chunks : list Chunk) :
  forall st,
    export_chunks (without_parse_errors w) start end_ silent includeKeys file
      chunks (forget_eparse_log st)
    = ((export_chunks w start end_ silent includeKeys file chunks st).1,
       forget_eparse_log
         (export_chunks w start end_ silent includeKeys file chunks st).2).
Proof.
  induction chunks as [|c chunks IH]; intros st; simpl; [reflexivity|].
  destruct (Clip w c start end_); simpl; [|apply IH].
  set (st1 := mkExportState _ _ _ _ (eparse_log st)).
  change (mkExportState (int (chunkCount st + 1)) (ecount st) (out st)
            (if negb silent then elog st ++ [LogChunk file c] else elog st)
            [])
    with (forget_eparse_log st1).
  rewrite export_docs_forget.
  destruct (export_docs (Expand w c includeKeys) 0 st1) as [[e|] st2];
    simpl; [reflexivity|apply IH].
Qed.

Lemma export_files_forget (w : World) (start end_ : Time) (silent : bool)
  (includeKeys : gmap string bool) (files : list string) :
  forall st,
    export_files (without_parse_errors w) start end_ silent includeKeys files
      (forget_eparse_log st)
    = ((export_files w start end_ silent includeKeys files st).1,
       forget_eparse_log
         (export_files w start end_ silent includeKeys files st).2).
Proof.
  induction files as [|file rest IH]; intros st; simpl; [reflexivity|].
  destruct (os_Open w file) as [f|]; simpl; [|reflexivity].
  rewrite export_chunks_forget.
  destruct (export_chunks w start end_ silent includeKeys file
              (chunks_read f) st) as [[e|] st2]; simpl; [reflexivity|].
  exact (IH (mkExportState (chunkCount st2) (ecount st2) (out st2)
               (elog st2) (report_parse_error f (eparse_log st2)))).
Qed.

(** X21: a failure to parse the chunk stream of a file changes nothing of
    what [export] returns, writes to its output or logs from its main
    goroutine: the run is the one it has when every stream ends cleanly
    where it ends, but for the messages of the parsing goroutines. *)
Theorem export_ignores_parse_failures (w : World) (files : list string)
  (tStart tEnd : string) (silent : bool) (wr : Writer)
  (includeKeys : gmap string bool) :
  export (without_parse_errors w) files tStart tEnd silent wr includeKeys
  = ((export w files tStart tEnd silent wr includeKeys).1,
     forget_eparse_log (export w files tStart tEnd silent wr includeKeys).2).
Proof.
  unfold export. case_bool_decide; [reflexivity|].
  rewrite parseTimes_without_parse_errors.
  destruct (parseTimes w tStart tEnd) as [e|[start end_]]; [reflexivity|].
  change (mkExportState 0 0 wr [] [])
    with (forget_eparse_log (mkExportState 0 0 wr [] [])) at 1.
  rewrite export_files_forget.
  by destruct (export_files w start end_ silent includeKeys files _)
    as [[e|] st].
Qed.

Lemma int_sub_int_l (a b : Z) : int (int a - b) = int (a - b).
Proof. rewrite <- !Z.add_opp_r. apply int_add_int_l. Qed.

Lemma export_docs_counted (base : Z) (ds : list Doc) :
  forall i st, counted base st -> counted base (export_docs ds i st).2.
Proof.
  induction ds as [|d ds IH]; intros i st Hst; simpl; [exact Hst|].
  unfold Encode. destruct (room (out st)) as [|r]; [exact Hst|].
  apply IH. destruct Hst as [Hw Hc]. unfold counted. simpl.
  split; [by rewrite int_idem|].
  rewrite length_app. simpl. rewrite <- Hc, int_sub_int_l. f_equal. lia.
Qed.

Lemma export_chunks_counted (base : Z) (w : World) (start end_ : Time)
  (silent : bool) (includeKeys : gmap string bool) (file : string)
  (chunks : list Chunk) :
  forall st,
    counted base st ->
    counted base
      (export_chunks w start end_ silent includeKeys file chunks st).2.
Proof.
  induction chunks as [|c chunks IH]; intros st Hst; simpl; [exact Hst|].
  destruct (Clip w c start end_); simpl; [|by apply IH].
  set (st1 := mkExportState _ _ _ _ _).
  pose proof (export_docs_counted base (Expand w c includeKeys) 0 st1 Hst)
    as Hdocs.
  destruct (export_docs (Expand w c includeKeys) 0 st1) as [[e|] st2];
    simpl in *; [exact Hdocs | by apply IH].
Qed.

Lemma export_files_counted (base : Z) (w : World) (start end_ : Time)
  (silent : bool) (includeKeys : gmap string bool) (files : list string) :
  forall st,
    counted base st ->
    counted base (export_files w start end_ silent includeKeys files st).2.
Proof.
  induction files as [|file rest IH]; intros st Hst; simpl; [exact Hst|].
  destruct (os_Open w file) as [f|]; simpl; [|exact Hst].
  pose proof (export_chunks_counted base w start end_ silent includeKeys file
                (chunks_read f) st Hst) as Hchunks.
  destruct (export_chunks w start end_ silent includeKeys file
              (chunks_read f) st) as [[e|] st2];
    simpl in *; [exact Hchunks | by apply IH].
Qed.

(** X22: however [export] ends, its count of samples is the number of
    documents it has written in this run, as an [int]; and when it returns
    [nil] and is not silent, its last line reports that number as the
    samples found. *)
Theorem export_counts_documents_written (w : World) (files : list string)
  (tStart tEnd : string) (silent : bool) (wr : Writer)
  (includeKeys : gmap string bool) :
  let run := export w files tStart tEnd silent wr includeKeys in
  let n :=
    int (Z.of_nat (length (written (out run.2)))
         - Z.of_nat (length (written wr))) in
  ecount run.2 = n
  /\ (run.1 = None -> silent = false ->
      last (elog run.2) = Some (LogFound n)).
Proof.
  cbv zeta.
  assert (Hbase : counted (- Z.of_nat (length (written wr)))
                    (mkExportState 0 0 wr [] [])).
  { unfold counted. simpl. split; [reflexivity|]. f_equal. }
  assert (Hfinal : forall st,
             counted (- Z.of_nat (length (written wr))) st ->
             ecount st
             = int (Z.of_nat (length (written (out st)))
                    - Z.of_nat (length (written wr)))).
  { intros st [Hw Hc]. rewrite Hw.
    transitivity
      (int (int (ecount st - Z.of_nat (length (written (out st))))
            + Z.of_nat (length (written (out st))))).
    { rewrite int_add_int_l. f_equal. lia. }
    rewrite Hc, int_add_int_l. f_equal. lia. }
  unfold export. case_bool_decide.
  { simpl. split; [|discriminate]. by apply (Hfinal _ Hbase). }
  destruct (parseTimes w tStart tEnd) as [e|[start end_]].
  { simpl. split; [|discriminate]. by apply (Hfinal _ Hbase). }
  pose proof (export_files_counted _ w start end_ silent includeKeys files
                _ Hbase) as Hrun.
  destruct (export_files _ _ _ _ _ _ _) as [[e|] st]; simpl in *.
  - split; [by apply Hfinal | discriminate].
  - split; [by apply Hfinal|]. intros _ ->. simpl.
    rewrite last_snoc. by rewrite (Hfinal _ Hrun).
Qed.

Lemma export_counts_documents_written_witness :
  let run := export small_world ["metrics.0"] "" "" false (mkWriter [] 9) ∅ in
  run.1 = None
  /\ last (elog run.2)
     = Some (LogFound
               (int (Z.of_nat (length (written (out run.2)))
                     - Z.of_nat 0))).
Proof.
  cbv zeta. split; [reflexivity|].
  apply (export_counts_documents_written small_world ["metrics.0"] "" ""
           false (mkWriter [] 9) ∅); reflexivity.
Defined.

End ExportMore.

(** ** The include-keys file and the memory counters *)

Section KeysAndMetrics.
Import GoInt Bson Ftdc Keys Metrics More.
Local Open Scope string_scope.
Local Open Scope list_scope.

Lemma scan_keys_from (ls : list string) :
  forall (m0 : gmap string bool) (k : string),
    fold_left (fun m l => <[l := true]> m) ls m0 !! k
    = if decide (k ∈ ls) then Some true else m0 !! k.
Proof.
  induction ls as [|l ls IH]; intros m0 k; cbn [fold_left].
  - case_decide as Hin; [by apply elem_of_nil in Hin | reflexivity].
  - rewrite IH. repeat case_decide; try reflexivity.
    + exfalso. match goal with H : k ∉ l :: ls |- _ => apply H end.
      by apply elem_of_cons; right.
    + match goal with H : k ∈ l :: ls |- _ =>
        apply elem_of_cons in H as [->|?]; [|done] end.
      apply lookup_insert_eq.
    + apply lookup_insert_ne. intros ->.
      match goal with H : k ∉ k :: ls |- _ => apply H end.
      apply list_elem_of_here.
Qed.

(** X23: for a keys file that opens, [readIncludeKeysFile] returns the map
    that sends exactly the lines scanned to [true] and holds nothing else,
    however often a line is repeated, together with the error of the
    scanner, if any: the keys read before a scan error are still
    returned. *)
Theorem readIncludeKeysFile_lookup (os_Open : string -> option KeyFile)
  (file : string) (f : KeyFile) :
  os_Open file = Some f ->
  exists m,
    readIncludeKeysFile os_Open file = (Some m, ScanFailed <$> scan_error f)
    /\ forall k, m !! k = if decide (k ∈ lines f) then Some true else None.
Proof.
  intros Hf. unfold readIncludeKeysFile. rewrite Hf.
  exists (scan_keys (lines f)). split; [reflexivity|].
  intros k. unfold scan_keys. by rewrite scan_keys_from, lookup_empty.
Qed.

Lemma readIncludeKeysFile_lookup_witness :
  exists m,
    readIncludeKeysFile
      (fun _ => Some (mkKeyFile ["start"; "x"; "start"] (Some "read error")))
      "keys.txt"
    = (Some m, Some (ScanFailed "read error"))
    /\ m !! "x" = Some true /\ m !! "y" = None.
Proof.
  destruct (readIncludeKeysFile_lookup
              (fun _ => Some (mkKeyFile ["start"; "x"; "start"]
                                (Some "read error")))
              "keys.txt"
              (mkKeyFile ["start"; "x"; "start"] (Some "read error"))
              eq_refl) as (m & Hrun & Hm).
  exists m. split; [exact Hrun|]. split.
  - rewrite Hm. reflexivity.
  - rewrite Hm. reflexivity.
Defined.

Lemma int64_uint64_small (v : Z) : 0 <= v < 2 ^ 63 -> int64 (uint64 v) = v.
Proof.
  intros Hv. unfold int64, uint64, swrap, uwrap.
  change (2 ^ (64 - 1)) with 9223372036854775808.
  change (2 ^ 63) with 9223372036854775808 in Hv.
  change (2 ^ 64) with 18446744073709551616.
  Z.div_mod_to_equations. lia.
Qed.

(** X24: the element [marshalMemExtra] builds from counters that fit in an
    [int64] flattens to seven metrics under the one more path key
    [memExtra], keyed [rss], [vms], [shared], [text], [lib], [data],
    [dirty] in this order and starting at the counters themselves; for no
    counters ([nil]) there is no element. *)
Theorem marshalMemExtra_flattens (path : list string)
  (mem : MemoryInfoExStat) :
  counters_fit mem ->
  marshalMemExtra None = None
  /\ exists e,
       marshalMemExtra (Some mem) = Some e
       /\ flattenDocument path [e]
          = map (fun kv => Metric_lit (path ++ ["memExtra"]) kv.1 kv.2)
              [("rss", RSS mem); ("vms", VMS mem); ("shared", Shared mem);
               ("text", Text mem); ("lib", Lib mem); ("data", Data mem);
               ("dirty", Dirty mem)].
Proof.
  intros Hfit. split; [reflexivity|]. eexists. split; [reflexivity|].
  unfold counters_fit in Hfit. rewrite !Forall_cons in Hfit.
  destruct Hfit as (H1 & H2 & H3 & H4 & H5 & H6 & H7 & _).
  simpl. unfold Metric_lit.
  rewrite !int64_uint64_small by assumption.
  change int64 with int. rewrite !int_idem.
  rewrite !int_small by (unfold min_int64, max_int64; lia).
  reflexivity.
Qed.

Lemma marshalMemExtra_flattens_witness :
  exists e,
    marshalMemExtra (Some (mkMemoryInfoExStat 1 2 3 4 5 6 7)) = Some e
    /\ map StartingValue (flattenDocument [] [e]) = [1; 2; 3; 4; 5; 6; 7].
Proof.
  destruct (marshalMemExtra_flattens []
              (mkMemoryInfoExStat 1 2 3 4 5 6 7)) as (_ & e & He & Hflat).
  - unfold counters_fit. simpl. repeat constructor; lia.
  - exists e. split; [exact He|]. rewrite Hflat. reflexivity.
Defined.

End KeysAndMetrics.

(** ** Keys of array elements *)

Section ArrayKeys.
Import GoInt Bson Ftdc Shape More.
Local Open Scope string_scope.
Local Open Scope list_scope.

Lemma string_app_inv_head (p s1 s2 : string) :
  (p ++ s1)%string = (p ++ s2)%string -> s1 = s2.
Proof.
  induction p as [|a p IH]; simpl; intros H; [exact H|].
  injection H as H. by apply IH.
Qed.

Lemma to_uint_nonnil (n : nat) : Nat.to_uint n <> Decimal.Nil.
Proof.
  rewrite <- (DecimalNat.Unsigned.of_to n) at 1.
  rewrite DecimalNat.Unsigned.to_of. apply DecimalFacts.unorm_nonnil.
Qed.

Lemma sprintf_key_idx_inj (key : string) (i j : nat) :
  sprintf_key_idx key i = sprintf_key_idx key j -> i = j.
Proof.
  unfold sprintf_key_idx. intros H.
  do 2 apply string_app_inv_head in H.
  apply (f_equal NilZero.uint_of_string) in H.
  rewrite !NilZero.usu in H by apply to_uint_nonnil.
  injection H as H. by apply DecimalNat.Unsigned.to_uint_inj.
Qed.

Lemma flattenArray_loop_one_series (key : string) (path : list string)
  (vs : list Value) :
  Forall (fun v => one_series v = true) vs ->
  forall idx,
    map schema_entry (flattenArray_loop key path idx vs)
    = map (fun i => (path, sprintf_key_idx key i)) (seq idx (length vs)).
Proof.
  induction 1 as [|v vs Hv _ IH]; intros idx; simpl; [reflexivity|].
  rewrite map_app, IH.
  destruct v as [ | | | | | | |[]| | | | | | | | | | | | | ];
    try discriminate Hv; reflexivity.
Qed.

(** X25: an array whose elements each give one series (booleans, doubles,
    32- and 64-bit integers, datetimes) flattens to one metric per element,
    in order; the array adds no key to the path, the element at index [i]
    is keyed by the array's key, a dot and [i] in decimal, and no two
    elements get the same key. *)
Theorem flattenArray_keys (key : string) (path : list string)
  (vs : list Value) :
  Forall (fun v => one_series v = true) vs ->
  map schema_entry (flattenArray key path (Some vs))
  = map (fun i => (path, sprintf_key_idx key i)) (seq 0 (length vs))
  /\ NoDup (map KeyName (flattenArray key path (Some vs))).
Proof.
  intros Hvs.
  pose proof (flattenArray_loop_one_series key path vs Hvs 0) as Hschema.
  unfold flattenArray. simpl. split; [exact Hschema|].
  replace (map KeyName (flattenArray_loop key path 0 vs))
    with (map snd (map schema_entry (flattenArray_loop key path 0 vs)))
    by (rewrite map_map; reflexivity).
  rewrite Hschema, map_map. simpl.
  apply NoDup_fmap_2_strong; [|apply NoDup_seq].
  intros i j _ _. apply sprintf_key_idx_inj.
Qed.

Lemma flattenArray_keys_witness :
  map schema_entry
    (flattenArray "cpu" ["host"] (Some [VInt64 3; VBoolean true]))
  = [(["host"], "cpu.0"); (["host"], "cpu.1")].
Proof.
  apply (flattenArray_keys "cpu" ["host"] [VInt64 3; VBoolean true]).
  repeat constructor.
Defined.

End ArrayKeys.
